(** * scripts/generate-data.js: the topology generator

    A shallow embedding of the script that turns a GitHub tree listing into
    the [nodes] array and the flat [edges] array read by the force-directed
    graph, with the properties the specification states about that output.

    Conventions of the embedding:
    - JS strings are [string] (bytes; a path is its UTF-8 text, in which the
      separator [/] is always the single byte 47);
    - array indices and node ids are [nat];
    - [dirMap] (a JS [Map] from path to node index) is a [gmap string nat];
    - a thrown exception or a rejected promise is an error result;
    - [String.prototype.localeCompare] depends on the collation of the
      runtime, so it is a parameter of the development;
    - [Array.prototype.sort] is fixed by ECMAScript only for a comparison
      that is consistent on the elements: [Js.sort] is a stable sort, and
      [Js.sortResult] describes what the sort of any engine may leave. *)

From Stdlib Require Import ZArith Ascii String List Lia.
From stdpp Require Import gmap strings list sorting pretty.

Local Open Scope Z_scope.
Local Open Scope nat_scope.

(** ** Library functions of the JS runtime used by the script *)

Module Js.

(** [Array.prototype.sort(comparefn)]: a stable sort.  An element is placed
    before the first element it does not compare greater than.  ECMAScript
    fixes the sorted order only for a comparison that is consistent on the
    elements ([consistentOn] below).  For another comparison the order is
    implementation-defined: [sort] is then one of the orders that an engine
    may leave, and [sortResult] describes them all. *)
Fixpoint insert {A : Type} (comparefn : A → A → Z) (x : A) (l : list A) : list A :=
  match l with
  | [] => [x]
  | y :: l' =>
      if (comparefn x y <=? 0)%Z then x :: y :: l'
      else y :: insert comparefn x l'
  end.

Definition sort {A : Type} (comparefn : A → A → Z) (l : list A) : list A :=
  foldr (insert comparefn) [] l.

(** [comparefn] is a consistent comparison on the elements of [l]: the
    elements that compare equal form classes, and the classes are totally
    ordered. *)
Definition consistentOn {A : Type} (comparefn : A → A → Z) (l : list A) : Prop :=
  (∀ a b, a ∈ l → b ∈ l → (0 < comparefn a b)%Z ↔ (comparefn b a < 0)%Z)
  ∧ (∀ a b c, a ∈ l → b ∈ l → c ∈ l →
       (comparefn a b <= 0)%Z → (comparefn b c <= 0)%Z → (comparefn a c <= 0)%Z).

(** The arrays that [l.sort(comparefn)] may leave, whatever the engine: a
    rearrangement of [l] and, when [comparefn] is consistent on [l], the one
    that is sorted and keeps the elements that compare equal in the order
    they had (the sort is stable).  When [comparefn] is not consistent
    nothing more is fixed. *)
Definition sortResult {A : Type} (comparefn : A → A → Z) (l sorted : list A) : Prop :=
  sorted ≡ₚ l
  ∧ (consistentOn comparefn l →
     StronglySorted (λ a b, (comparefn a b <= 0)%Z) sorted
     ∧ ∀ x, x ∈ l →
         filter (λ y, comparefn x y = 0%Z) sorted
         = filter (λ y, comparefn x y = 0%Z) l).

(** [s.split(sep)] for a one-character separator. *)
Fixpoint split (sep : ascii) (s : string) : list string :=
  match s with
  | EmptyString => [EmptyString]
  | String c s' =>
      if Ascii.eqb c sep then EmptyString :: split sep s'
      else match split sep s' with
           | h :: t => String c h :: t
           | [] => [String c EmptyString]
           end
  end.

(** [String(n)] for a non-negative integer: its decimal digits. *)
Definition String_ (n : nat) : string := pretty n.

(** [arr.join(sep)]. *)
Fixpoint join (sep : string) (l : list string) : string :=
  match l with
  | [] => ""
  | [x] => x
  | x :: rest => x +:+ sep +:+ join sep rest
  end.

(** [path.charCodeAt(i) === CHAR_FORWARD_SLASH] *)
Definition isSlashAt (path : string) (i : nat) : bool :=
  match String.get i path with
  | Some c => Ascii.eqb c "/"%char
  | None => false
  end.

(** The loop of [path.dirname] (posix): [i] runs from the last index down to
    1; the result is the value of [end] when the loop breaks, [None] when it
    runs to completion with [end === -1]. *)
Fixpoint dirname_loop (path : string) (i : nat) (matchedSlash : bool) : option nat :=
  match i with
  | 0 => None
  | S i' =>
      if isSlashAt path i then
        if matchedSlash then dirname_loop path i' matchedSlash
        else Some i
      else dirname_loop path i' false
  end.

Definition dirname (path : string) : string :=
  if String.length path =? 0 then "."
  else
    let hasRoot := isSlashAt path 0 in
    match dirname_loop path (String.length path - 1) true with
    | None => if hasRoot then "/" else "."
    | Some end_ =>
        if hasRoot && (end_ =? 1) then "//"
        else String.substring 0 end_ path
    end.

(** Hexadecimal digit, lower case, as [JSON.stringify] prints it. *)
Definition hexDigit (n : nat) : ascii :=
  ascii_of_nat (if n <? 10 then 48 + n else 87 + n).

(** [JSON.stringify] of a string: the characters it escapes are the double
    quote, the backslash and the control characters below 0x20. *)
Definition jsonEscapeChar (c : ascii) : string :=
  let n := nat_of_ascii c in
  if n =? 34 then "\" +:+ String c ""
  else if n =? 92 then "\\"
  else if n =? 8 then "\b"
  else if n =? 9 then "\t"
  else if n =? 10 then "\n"
  else if n =? 12 then "\f"
  else if n =? 13 then "\r"
  else if n <? 32 then
    "\u00" +:+ String (hexDigit (n / 16)) (String (hexDigit (n mod 16)) "")
  else String c "".

Fixpoint jsonEscape (s : string) : string :=
  match s with
  | EmptyString => ""
  | String c s' => jsonEscapeChar c +:+ jsonEscape s'
  end.

Definition jsonString (s : string) : string :=
  String (ascii_of_nat 34) (jsonEscape s +:+ String (ascii_of_nat 34) "").

End Js.

(** ** Data *)

(** An element of [treeData.tree], the listing returned by the GitHub trees
    API.  [type] is ["tree"] for a directory, ["blob"] for a file and
    ["commit"] for a submodule. *)
Record entry := Entry { path : string; type : string }.

(** An element of [nodes]; [pid] is the optional property of the JS object. *)
Record node := Node { t : string; p : string; id : nat; pid : option string }.

(** The local variables of [main] that the two passes update. *)
Record state := State {
  nodes : list node;
  dirMap : gmap string nat;
  nextId : nat
}.

(** What [main] serialises. *)
Record topology := Topology { topNodes : list node; topEdges : list nat }.

Definition MAX_NODES : nat := 2500.

Definition rootNode : node := Node "r" "/" 0 None.

(** [nodes.push({ t: 'r', p: '/', id: 0 })], [dirMap.set('', 0)],
    [nextId = 1]. *)
Definition initial : state := State [rootNode] {[ "" := 0 ]} 1.

Definition isTree (e : entry) : bool := String.eqb (type e) "tree".
Definition isBlob (e : entry) : bool := String.eqb (type e) "blob".

(** [parentPath === '.' ? '' : parentPath] with
    [parentPath = path.dirname(p)]. *)
Definition parentKeyOf (p : string) : string :=
  let parentPath := Js.dirname p in
  if String.eqb parentPath "." then "" else parentPath.

(** The body shared by both passes: the node of an entry, [None] when
    [nodes[parentIdx].id] throws. *)
Definition makeNode (kind : string) (e : entry) (st : state) : option node :=
  let id_ := nextId st in
  match dirMap st !! parentKeyOf (path e) with
  | Some parentIdx =>
      if parentIdx =? 0 then Some (Node kind (path e) id_ None)
      else
        match nodes st !! parentIdx with
        | Some parent => Some (Node kind (path e) id_ (Some (Js.String_ (id parent))))
        | None => None
        end
  | None => Some (Node kind (path e) id_ None)
  end.

(** First pass: create all directory nodes. *)
Fixpoint firstPass (entries : list entry) (st : state) : option state :=
  match entries with
  | [] => Some st
  | e :: rest =>
      if negb (isTree e) then firstPass rest st
      else
        match makeNode "d" e st with
        | Some n =>
            firstPass rest
              (State (nodes st ++ [n])
                     (<[path e := length (nodes st)]> (dirMap st))
                     (S (nextId st)))
        | None => None
        end
  end.

(** Second pass: create all file nodes. *)
Fixpoint secondPass (entries : list entry) (st : state) : option state :=
  match entries with
  | [] => Some st
  | e :: rest =>
      if negb (isBlob e) then secondPass rest st
      else
        match makeNode "f" e st with
        | Some n =>
            secondPass rest (State (nodes st ++ [n]) (dirMap st) (S (nextId st)))
        | None => None
        end
  end.

(** One iteration of an edge loop, at index [i] with [node = nodes[i]];
    [inRange] is the extra test of the loop that runs after trimming. *)
Definition edgeOf (dm : gmap string nat) (inRange : nat → bool)
    (i : nat) (nd : node) : list nat :=
  match dm !! parentKeyOf (p nd) with
  | Some parentIdx => if inRange parentIdx then [i; parentIdx] else []
  | None => []
  end.

(** [for (let i = ...; i < nodes.length; i++)] over the nodes from index [i]
    on. *)
Fixpoint edgesFrom (dm : gmap string nat) (inRange : nat → bool)
    (i : nat) (ns : list node) : list nat :=
  match ns with
  | [] => []
  | nd :: rest => edgeOf dm inRange i nd ++ edgesFrom dm inRange (S i) rest
  end.

(** The first edge loop: [if (parentIdx !== undefined)]. *)
Definition rawEdges (st : state) : list nat :=
  edgesFrom (dirMap st) (λ _, true) 1 (drop 1 (nodes st)).

(** The loop after [nodes.length = MAX_NODES]:
    [if (parentIdx !== undefined && parentIdx < nodes.length)]. *)
Definition rebuiltEdges (dm : gmap string nat) (ns : list node) : list nat :=
  edgesFrom dm (λ parentIdx, parentIdx <? length ns) 1 (drop 1 ns).

(** Limit to [MAX_NODES] nodes. *)
Definition trim (st : state) : topology :=
  if MAX_NODES <? length (nodes st) then
    let ns := take MAX_NODES (nodes st) in
    Topology ns (rebuiltEdges (dirMap st) ns)
  else Topology (nodes st) (rawEdges st).

(** [main] from the first pass to the end of the second, over the sorted
    listing [entries]. *)
Definition passes (entries : list entry) : option state :=
  st ← firstPass entries initial;
  secondPass entries st.

(** [main] from the first pass to the arrays it serialises. *)
Definition generate (entries : list entry) : option topology :=
  trim <$> passes entries.

Section Generator.

(** [a.localeCompare(b)] of the runtime. *)
Variable localeCompare : string → string → Z.

(** The comparison function given to [treeData.tree.sort]. *)
Definition compareEntries (a b : entry) : Z :=
  if negb (String.eqb (type a) (type b)) then
    if String.eqb (type a) "tree" then (-1)%Z else 1%Z
  else localeCompare (path a) (path b).

(** [main] from the sort to the end of the second pass. *)
Definition buildRaw (tree : list entry) : option state :=
  let entries := Js.sort compareEntries tree in
  passes entries.

(** [main] from the fetched listing to the arrays it serialises. *)
Definition buildTopology (tree : list entry) : option topology :=
  trim <$> buildRaw tree.

End Generator.

(** ** Serialisation *)

(** [JSON.stringify(n)]: the properties in creation order. *)
Definition stringifyNode (n : node) : string :=
  "{" +:+ Js.jsonString "t" +:+ ":" +:+ Js.jsonString (t n) +:+ ","
      +:+ Js.jsonString "p" +:+ ":" +:+ Js.jsonString (p n) +:+ ","
      +:+ Js.jsonString "id" +:+ ":" +:+ Js.String_ (id n)
      +:+ match pid n with
          | Some s => "," +:+ Js.jsonString "pid" +:+ ":" +:+ Js.jsonString s
          | None => ""
          end
      +:+ "}".

Definition newline : string := String (ascii_of_nat 10) "".

Definition nodesContent (ns : list node) : string :=
  "export const nodes = [" +:+ newline +:+ "  [" +:+ newline
    +:+ Js.join ("," +:+ newline) (map (λ n, "    " +:+ stringifyNode n) ns)
    +:+ newline +:+ "  ]" +:+ newline +:+ "]" +:+ newline.

Definition edgesContent (es : list nat) : string :=
  "export const edges = [" +:+ Js.join ", " (map Js.String_ es) +:+ "]" +:+ newline.

(** ** The script around [main] *)

(** The part of a parsed response body that the script reads. *)
Record ghJson := GhJson {
  default_branch : option string;
  truncated : bool;
  tree : option (list entry)
}.

(** What [https.get] delivers: the ['error'] event, or a status code with a
    body; the body is [None] when [JSON.parse] throws on it. *)
Inductive response :=
  | NetworkError
  | Reply (statusCode : nat) (data : option ghJson).

(** Everything outside the script that a run depends on: the arguments after
    [process.argv.slice(2)], the environment variable, the API (by request
    path and [Authorization] header) and whether a file can be written. *)
Record world := World {
  argv : list string;
  GITHUB_TOKEN : option string;
  github : string → option string → response;
  writable : string → bool
}.

(** The exit status of the process and the files it wrote, in order, each
    with its content. *)
Record outcome := Outcome { exitCode : nat; written : list (string * string) }.

Definition nodesFile : string := "src/data/nodes.js".
Definition edgesFile : string := "src/data/edges.js".

(** A JS string is truthy when it is defined and not empty. *)
Definition truthy (s : option string) : bool :=
  match s with
  | Some s' => negb (String.eqb s' "")
  | None => false
  end.

(** A value inside a template literal. *)
Definition interpolate (s : option string) : string :=
  match s with
  | Some s' => s'
  | None => "undefined"
  end.

Definition authorization (w : world) : option string :=
  if truthy (GITHUB_TOKEN w) then Some ("token " +:+ interpolate (GITHUB_TOKEN w))
  else None.

(** [ghFetch]: [None] when the promise rejects (network error, status other
    than 200) or the body does not parse. *)
Definition ghFetch (w : world) (urlPath : string) : option ghJson :=
  match github w urlPath (authorization w) with
  | NetworkError => None
  | Reply statusCode data =>
      if negb (statusCode =? 200) then None else data
  end.

Definition getDefaultBranch (w : world) (owner repo : string) : option (option string) :=
  repoData ← ghFetch w ("/repos/" +:+ owner +:+ "/" +:+ repo);
  Some (default_branch repoData).

(** [branch || await getDefaultBranch()] *)
Definition resolveRef (w : world) (owner repo : string) (branch : option string)
    : option (option string) :=
  if truthy branch then Some branch else getDefaultBranch w owner repo.

Definition treeUrl (owner repo : string) (ref : option string) : string :=
  "/repos/" +:+ owner +:+ "/" +:+ repo +:+ "/git/trees/" +:+ interpolate ref
    +:+ "?recursive=1".

(** [main] up to [treeData.tree]: the listing that the run fetches. *)
Definition fetchTree (w : world) (owner repo : string) (branch : option string)
    : option (list entry) :=
  ref ← resolveRef w owner repo branch;
  treeData ← ghFetch w (treeUrl owner repo ref);
  tree treeData.

(** The two [fs.writeFileSync] calls; a call that throws ends the run. *)
Definition writeFiles (w : world) (topo : topology) : outcome :=
  let nodesText := nodesContent (topNodes topo) in
  let edgesText := edgesContent (topEdges topo) in
  if writable w nodesFile then
    if writable w edgesFile then
      Outcome 0 [(nodesFile, nodesText); (edgesFile, edgesText)]
    else Outcome 1 [(nodesFile, nodesText)]
  else Outcome 1 [].

(** The two checks before [main]: [None] when the script prints its usage
    and calls [process.exit(1)], the owner, the repository and the optional
    branch otherwise. *)
Definition parseArgs (w : world) : option (string * string * option string) :=
  let repoArg := argv w !! 0 in
  let branch := argv w !! 1 in
  if negb (truthy repoArg) then None
  else
    let parts := Js.split "/"%char (interpolate repoArg) in
    let owner := parts !! 0 in
    let repo := parts !! 1 in
    if negb (truthy owner) || negb (truthy repo) then None
    else Some (interpolate owner, interpolate repo, branch).

(** A request that makes [ghFetch] reject: a network error or a status other
    than 200. *)
Definition requestFails (w : world) (urlPath : string) : Prop :=
  match github w urlPath (authorization w) with
  | NetworkError => True
  | Reply statusCode _ => statusCode ≠ 200
  end.

Section Script.

Variable localeCompare : string → string → Z.

(** [main().catch(... process.exit(1))] *)
Definition main (w : world) (owner repo : string) (branch : option string) : outcome :=
  match fetchTree w owner repo branch ≫= buildTopology localeCompare with
  | Some topo => writeFiles w topo
  | None => Outcome 1 []
  end.

(** The whole script. *)
Definition script (w : world) : outcome :=
  match parseArgs w with
  | Some (owner, repo, branch) => main w owner repo branch
  | None => Outcome 1 []
  end.

End Script.

(** ** A concrete collation and sample listings, used to run the model *)

(** Comparison by code units, the order of a runtime without collation
    data. *)
Definition codeUnitCompare (a b : string) : Z :=
  match String.compare a b with
  | Lt => (-1)%Z
  | Eq => 0%Z
  | Gt => 1%Z
  end.

Definition dir (s : string) : entry := Entry s "tree".
Definition file (s : string) : entry := Entry s "blob".

(** A small repository: two directories, one nested, and four files. *)
Definition sampleTree : list entry :=
  [ file "README.md"; dir "src"; file "src/index.js"; dir "src/lib";
    file "src/lib/util.js"; file "package.json" ].

(** A listing with a file whose directory is not listed. *)
Definition orphanTree : list entry := [ file "docs/guide.md" ].

(** A listing with a directory, a file in it, and a file whose directory is
    not listed. *)
Definition strayTree : list entry :=
  [ dir "src"; file "src/a.js"; file "lib/b.js" ].

(** A name of two characters for each number below 2600, increasing with the
    number. *)
Definition flatName (i : nat) : string :=
  String (ascii_of_nat (48 + i / 50)) (String (ascii_of_nat (48 + i mod 50)) "").

(** A repository of 2600 files at top level: more nodes than the cap. *)
Definition largeTree : list entry := map (λ i, file (flatName i)) (seq 0 2600).

(** An API that knows one repository, with default branch [main] and the
    sample listing on it, whatever the [Authorization] header. *)
Definition sampleApi (urlPath : string) (auth : option string) : response :=
  if String.eqb urlPath "/repos/cardano-foundation/cardano-org" then
    Reply 200 (Some (GhJson (Some "main") false None))
  else if String.eqb urlPath
            "/repos/cardano-foundation/cardano-org/git/trees/main?recursive=1" then
    Reply 200 (Some (GhJson None false (Some sampleTree)))
  else Reply 404 (Some (GhJson None false None)).

(** A run without branch argument and without token, *)
Definition sampleWorld : world :=
  World ["cardano-foundation/cardano-org"] None sampleApi (λ _, true).

(** a run with both, *)
Definition sampleWorld' : world :=
  World ["cardano-foundation/cardano-org"; "main"] (Some "ghp_xxx") sampleApi (λ _, true).

(** a run against an API that is down, and a run without arguments. *)
Definition offlineWorld : world :=
  World ["cardano-foundation/cardano-org"] None (λ _ _, NetworkError) (λ _, true).

Definition noArgsWorld : world := World [] None sampleApi (λ _, true).

(** A repository with a submodule at [vendor/dep]. *)
Definition submoduleTree : list entry :=
  [ file "README.md"; dir "src"; Entry "vendor/dep" "commit"; dir "vendor";
    file "src/index.js"; dir "src/lib"; file "src/lib/util.js" ].

(** A listing with a directory whose path is empty. *)
Definition emptyPathTree : list entry := [ dir ""; file "a"; dir "b" ].

(** The four decimal digits of a number below 10000: names that every
    collation puts in the order of the numbers. *)
Definition padName (i : nat) : string :=
  String (ascii_of_nat (48 + i / 1000))
    (String (ascii_of_nat (48 + i / 100 mod 10))
       (String (ascii_of_nat (48 + i / 10 mod 10))
          (String (ascii_of_nat (48 + i mod 10)) ""))).

(** 2600 files in a directory that is not listed. *)
Definition unlistedLargeTree : list entry :=
  map (λ i, file ("lib/" +:+ padName i)) (seq 0 2600).

(** 2600 directories at top level, with a file in the first of them and a
    file in the last. *)
Definition nestedLargeTree : list entry :=
  map (λ i, dir (padName i)) (seq 0 2600)
  ++ [ file (padName 0 +:+ "/f"); file (padName 2599 +:+ "/f") ].

(** A listing with a submodule between two files, and two orders in which a
    sort can leave it.  The first is that of an insertion sort that moves an
    element to the left past the elements that compare greater than it, the
    second that of an insertion sort that moves it to the left past the
    elements that it compares less than. *)
Definition mixedTree : list entry :=
  [ file "b"; Entry "m" "commit"; file "a"; dir "d" ].

Definition mixedShifted : list entry :=
  [ dir "d"; file "a"; Entry "m" "commit"; file "b" ].

Definition mixedInserted : list entry :=
  [ dir "d"; file "b"; Entry "m" "commit"; file "a" ].

(** 2599 files in increasing order, then a submodule, then the file that
    sorts first: no entry compares less than the entry before it, so a sort
    that looks for an increasing run finds the whole listing in order and
    leaves it as it is. *)
Definition mixedLargeTree : list entry :=
  map (λ i, file (padName i)) (seq 1 2599)
  ++ [ Entry "m" "commit"; file (padName 0) ].

(** ** Notions used to state the properties *)

(** The flat [edges] array read as [(childIndex, parentIndex)] pairs. *)
Fixpoint pairsOf (es : list nat) : list (nat * nat) :=
  match es with
  | c :: q :: rest => (c, q) :: pairsOf rest
  | _ => []
  end.

(** The flat array of a list of pairs. *)
Definition flatten (ps : list (nat * nat)) : list nat :=
  flat_map (λ e, [e.1; e.2]) ps.

(** The parent that an edge list gives a node, if any. *)
Definition parentOf (ps : list (nat * nat)) (i : nat) : option nat :=
  snd <$> List.find (λ e, e.1 =? i) ps.

(** The node reached from [i] by following [k] parent links. *)
Fixpoint ancestor (ps : list (nat * nat)) (k : nat) (i : nat) : option nat :=
  match k with
  | 0 => Some i
  | S k' => parentOf ps i ≫= ancestor ps k'
  end.

(** [n] nodes with the edge pairs [ps] form a single tree rooted at node 0:
    node 0 has no parent edge and every other node exactly one (the children
    of the pairs are 1, ..., n-1, each once), every parent is one of the
    nodes, and following parent links from any node arrives at node 0, so
    there is no cycle. *)
Definition rootedTree (n : nat) (ps : list (nat * nat)) : Prop :=
  map fst ps = seq 1 (n - 1)
  ∧ Forall (λ e, e.2 < n) ps
  ∧ ∀ i, i < n → ∃ k, ancestor ps k i = Some 0.

(** The index that a loop over [ns] finds for the parent of [nd]: the entry
    of the directory map for the parent key, when it passes [inRange]. *)
Definition parentIdxOf (dm : gmap string nat) (inRange : nat → bool)
    (nd : node) : option nat :=
  match dm !! parentKeyOf (p nd) with
  | Some parentIdx => if inRange parentIdx then Some parentIdx else None
  | None => None
  end.

(** The pairs that an edge loop pushes for the nodes [ns], the first of them
    at index [i]. *)
Fixpoint pairsFrom (dm : gmap string nat) (inRange : nat → bool)
    (i : nat) (ns : list node) : list (nat * nat) :=
  match ns with
  | [] => []
  | nd :: rest =>
      match parentIdxOf dm inRange nd with
      | Some parentIdx => (i, parentIdx) :: pairsFrom dm inRange (S i) rest
      | None => pairsFrom dm inRange (S i) rest
      end
  end.

(** The non-root nodes of [ns] that an edge loop leaves without a pair. *)
Definition unparented (dm : gmap string nat) (inRange : nat → bool)
    (ns : list node) : list node :=
  filter (λ nd, parentIdxOf dm inRange nd = None) (drop 1 ns).

(** The test that the final edge list was built with: none for an untrimmed
    list, [parentIdx < nodes.length] after trimming. *)
Definition finalRange (st : state) : nat → bool :=
  if MAX_NODES <? length (nodes st) then (λ parentIdx, parentIdx <? MAX_NODES)
  else (λ _, true).

(** A path is relative and not empty, as the paths of a git tree are. *)
Definition relativePath (s : string) : bool :=
  negb (String.eqb s "") && negb (Js.isSlashAt s 0).

(** Every directory of the listing has a relative, non-empty path. *)
Definition dirPathsRelative (tree : list entry) : bool :=
  forallb (λ e, implb (isTree e) (relativePath (path e))) tree.

(** The listing has directories and files only.  On such a listing the
    comparison given to the sort is consistent when the collation is; it is
    not on a listing with a file and an entry of a third type (a submodule),
    which it puts each after the other. *)
Definition treesAndBlobs (tree : list entry) : bool :=
  forallb (λ e, isTree e || isBlob e) tree.

(** Every directory and file of the listing is at top level or has its
    directory listed too, as in a listing of a git tree. *)
Definition parentsListed (tree : list entry) : bool :=
  forallb (λ e,
    if isTree e || isBlob e then
      if String.eqb (parentKeyOf (path e)) "" then true
      else existsb (λ d, isTree d && String.eqb (path d) (parentKeyOf (path e))) tree
    else true)
    tree.

(** The [pid] that a pass gives a node of path [s] when the directory map is
    [dm]. *)
Definition pidOf (dm : gmap string nat) (s : string) : option string :=
  match dm !! parentKeyOf s with
  | Some parentIdx => if parentIdx =? 0 then None else Some (Js.String_ parentIdx)
  | None => None
  end.

(** The directory map after [dirMap.set(d, i)] for the directories [ds], the
    first of them at index [base]. *)
Fixpoint dirsMap (base : nat) (ds : list string) (dm : gmap string nat)
    : gmap string nat :=
  match ds with
  | [] => dm
  | d :: ds' => dirsMap (S base) ds' (<[d := base]> dm)
  end.

(** The directory nodes of the first pass over the directories [ds]. *)
Fixpoint dirNodes (base : nat) (ds : list string) (dm : gmap string nat)
    : list node :=
  match ds with
  | [] => []
  | d :: ds' => Node "d" d base (pidOf dm d) :: dirNodes (S base) ds' (<[d := base]> dm)
  end.

(** The file nodes of the second pass over the files [fs]. *)
Fixpoint fileNodes (base : nat) (fs : list string) (dm : gmap string nat)
    : list node :=
  match fs with
  | [] => []
  | f :: fs' => Node "f" f base (pidOf dm f) :: fileNodes (S base) fs' dm
  end.

(** The last position of [k] in [ds]. *)
Fixpoint lastIndex (k : string) (ds : list string) : option nat :=
  match ds with
  | [] => None
  | d :: ds' =>
      match lastIndex k ds' with
      | Some i => Some (S i)
      | None => if String.eqb d k then Some 0 else None
      end
  end.

(** The paths of the entries with a given type test, in their order. *)
Definition pathsOf (test : entry → bool) (tree : list entry) : list string :=
  map path (filter (λ e, test e = true) tree).

(** Sorted by the collation: no element compares greater than a later one. *)
Definition sortedBy (cmp : string → string → Z) (l : list string) : Prop :=
  StronglySorted (λ a b, (cmp a b <= 0)%Z) l.

(** ** Assumptions on the collation *)

(** The conditions under which ECMAScript fixes the result of a sort, *)
Definition antisymmetricCmp (cmp : string → string → Z) : Prop :=
  ∀ a b, (0 < cmp a b)%Z ↔ (cmp b a < 0)%Z.

Definition transitiveCmp (cmp : string → string → Z) : Prop :=
  ∀ a b c, (cmp a b <= 0)%Z → (cmp b c <= 0)%Z → (cmp a c <= 0)%Z.

(** and: a directory sorts before every path below it. *)
Definition directoryFirst (cmp : string → string → Z) : Prop :=
  ∀ d rest, rest ≠ "" → (cmp d (d +:+ "/" +:+ rest) < 0)%Z.

(** ** The result of the two passes in closed form *)

(** The state at the end of the second pass over the sorted listing
    [entries]. *)
Definition stateOf (entries : list entry) : state :=
  State (rootNode :: dirNodes 1 (pathsOf isTree entries) {[ "" := 0 ]}
           ++ fileNodes (S (length (pathsOf isTree entries)))
                (pathsOf isBlob entries)
                (dirsMap 1 (pathsOf isTree entries) {[ "" := 0 ]}))
        (dirsMap 1 (pathsOf isTree entries) {[ "" := 0 ]})
        (S (length (pathsOf isTree entries) + length (pathsOf isBlob entries))).

Section ClosedForm.

Variable localeCompare : string → string → Z.

(** The directory paths and the file paths, each in the order of the sorted
    listing. *)
Definition dirsOf (tree : list entry) : list string :=
  pathsOf isTree (Js.sort (compareEntries localeCompare) tree).

Definition filesOf (tree : list entry) : list string :=
  pathsOf isBlob (Js.sort (compareEntries localeCompare) tree).

(** The directory map at the end of the first pass. *)
Definition dirMapOf (tree : list entry) : gmap string nat :=
  dirsMap 1 (dirsOf tree) {[ "" := 0 ]}.

(** The state at the end of the second pass. *)
Definition rawState (tree : list entry) : state :=
  State (rootNode :: dirNodes 1 (dirsOf tree) {[ "" := 0 ]}
           ++ fileNodes (S (length (dirsOf tree))) (filesOf tree) (dirMapOf tree))
        (dirMapOf tree)
        (S (length (dirsOf tree) + length (filesOf tree))).

End ClosedForm.

(** The invariant of the two passes: the next id is the next index, every
    node has its index as id, and the directory map points into [nodes]. *)
Definition wfState (st : state) : Prop :=
  nextId st = length (nodes st)
  ∧ (∀ i n, nodes st !! i = Some n → id n = i)
  ∧ (∀ k j, dirMap st !! k = Some j → j < length (nodes st)).

(** ** Notions used to state further properties *)

(** The characters of a string. *)
Definition chars (s : string) : list ascii := String.list_ascii_of_string s.

(** No character of the string is the separator [/]. *)
Definition noSlash (s : string) : bool :=
  forallb (λ c, negb (Ascii.eqb c "/"%char)) (chars s).

(** Every character has code 32 or more: no control character, so no line
    break. *)
Definition printable (s : string) : Prop :=
  Forall (λ c, 32 ≤ nat_of_ascii c) (chars s).

(** A character that [JSON.stringify] copies as it is. *)
Definition plainChar (c : ascii) : bool :=
  (32 <=? nat_of_ascii c) && negb (nat_of_ascii c =? 34)
  && negb (nat_of_ascii c =? 92).

(** An API on which the repository request fails and the request for the
    listing of branch [main] succeeds. *)
Definition treeOnlyApi (urlPath : string) (auth : option string) : response :=
  if String.eqb urlPath
       "/repos/cardano-foundation/cardano-org/git/trees/main?recursive=1" then
    Reply 200 (Some (GhJson None false (Some sampleTree)))
  else NetworkError.

Definition treeOnlyWorld : world :=
  World ["cardano-foundation/cardano-org"; "main"] None treeOnlyApi (λ _, true).

(** Every character is a decimal digit. *)
Definition digits (s : string) : Prop :=
  Forall (λ c, 48 ≤ nat_of_ascii c ≤ 57) (chars s).

(** The number of line breaks in a string. *)
Definition lineBreaks (s : string) : nat :=
  length (filter (λ c, nat_of_ascii c = 10) (chars s)).

(** The double quote. *)
Definition quote : ascii := ascii_of_nat 34.

(** ** The model at work *)

Example dirname_examples :
  (Js.dirname "src/lib/util.js", Js.dirname "README.md", Js.dirname "a//b",
   Js.dirname "/etc", Js.dirname "")
  = ("src/lib", ".", "a/", "/", ".").
Proof. reflexivity. Qed.

Example parentKeyOf_examples :
  (parentKeyOf "src/lib/util.js", parentKeyOf "README.md") = ("src/lib", "").
Proof. reflexivity. Qed.

Example sort_example :
  map path (Js.sort (compareEntries codeUnitCompare) sampleTree)
  = ["src"; "src/lib"; "README.md"; "package.json"; "src/index.js"; "src/lib/util.js"].
Proof. reflexivity. Qed.

Example sample_topology :
  buildTopology codeUnitCompare sampleTree
  = Some (Topology
            [ Node "r" "/" 0 None;
              Node "d" "src" 1 None;
              Node "d" "src/lib" 2 (Some "1");
              Node "f" "README.md" 3 None;
              Node "f" "package.json" 4 None;
              Node "f" "src/index.js" 5 (Some "1");
              Node "f" "src/lib/util.js" 6 (Some "2") ]
            [1; 0; 2; 1; 3; 0; 4; 0; 5; 1; 6; 2]).
Proof. vm_compute. reflexivity. Qed.

Example stringifyNode_example :
  stringifyNode (Node "f" "src/lib/util.js" 6 (Some "2"))
  = "{" +:+ Js.jsonString "t" +:+ ":" +:+ Js.jsonString "f" +:+ ","
        +:+ Js.jsonString "p" +:+ ":" +:+ Js.jsonString "src/lib/util.js" +:+ ","
        +:+ Js.jsonString "id" +:+ ":6,"
        +:+ Js.jsonString "pid" +:+ ":" +:+ Js.jsonString "2" +:+ "}".
Proof. vm_compute. reflexivity. Qed.

Example edgesContent_example :
  edgesContent [1; 0; 2; 1] = "export const edges = [1, 0, 2, 1]" +:+ newline.
Proof. vm_compute. reflexivity. Qed.

Example parseArgs_examples :
  parseArgs sampleWorld = Some ("cardano-foundation", "cardano-org", None)
  ∧ parseArgs sampleWorld' = Some ("cardano-foundation", "cardano-org", Some "main")
  ∧ parseArgs noArgsWorld = None
  ∧ parseArgs (World ["cardano-org"] None sampleApi (λ _, true)) = None
  ∧ parseArgs (World ["cardano-foundation/"] None sampleApi (λ _, true)) = None.
Proof. repeat split; vm_compute; reflexivity. Qed.

Example sample_run :
  exitCode (script codeUnitCompare sampleWorld) = 0
  ∧ map fst (written (script codeUnitCompare sampleWorld)) = [nodesFile; edgesFile]
  ∧ script codeUnitCompare offlineWorld = Outcome 1 []
  ∧ script codeUnitCompare noArgsWorld = Outcome 1 [].
Proof. repeat split; vm_compute; reflexivity. Qed.

(** A submodule gives no node. *)
Example submodule_topology :
  buildTopology codeUnitCompare submoduleTree
  = Some (Topology
            [ Node "r" "/" 0 None;
              Node "d" "src" 1 None;
              Node "d" "src/lib" 2 (Some "1");
              Node "d" "vendor" 3 None;
              Node "f" "README.md" 4 None;
              Node "f" "src/index.js" 5 (Some "1");
              Node "f" "src/lib/util.js" 6 (Some "2") ]
            [1; 0; 2; 1; 3; 0; 4; 0; 5; 1; 6; 2]).
Proof. vm_compute. reflexivity. Qed.

(** The passes over the two orders of the listing with a submodule between
    two files; the first order is the one of the model of the sort. *)
Example mixed_orders :
  Js.sort (compareEntries codeUnitCompare) mixedTree = mixedShifted
  ∧ (map p ∘ topNodes) <$> generate mixedShifted = Some ["/"; "d"; "a"; "b"]
  ∧ (map p ∘ topNodes) <$> generate mixedInserted = Some ["/"; "d"; "b"; "a"].
Proof. repeat split; vm_compute; reflexivity. Qed.

Example padName_examples :
  (padName 0, padName 7, padName 2599) = ("0000", "0007", "2599").
Proof. reflexivity. Qed.

(** The 2601 raw nodes of the large listing are cut to 2500, each kept file
    with its edge to the root. *)
Example large_topology :
  (λ o, (length (topNodes o), length (pairsOf (topEdges o)),
         last (pairsOf (topEdges o))))
    <$> buildTopology codeUnitCompare largeTree
  = Some (2500, 2499, Some (2499, 0)).
Proof. vm_compute. reflexivity. Qed.

(** ** Strings and [path.dirname] *)

Lemma get_split (s : string) : ∀ n c,
  String.get n s = Some c →
  ∃ rest, s = String.substring 0 n s +:+ String c rest
          ∧ String.length rest = String.length s - S n.
Proof.
  induction s as [|a s IH]; intros n c Hget; [by destruct n|].
  destruct n as [|n]; simpl in Hget.
  - injection Hget as ->. exists s. simpl. split; [done|lia].
  - destruct (IH n c Hget) as (rest & Heq & Hlen).
    exists rest. split; [|done].
    change (String a s = String a (String.substring 0 n s +:+ String c rest)).
    by rewrite <- Heq.
Qed.

Lemma isSlashAt_get (s : string) (i : nat) :
  Js.isSlashAt s i = true → String.get i s = Some "/"%char.
Proof.
  unfold Js.isSlashAt. destruct (String.get i s) as [c|]; [|done].
  intros H. apply Ascii.eqb_eq in H. by subst.
Qed.

Lemma dirname_loop_spec (s : string) : ∀ i m e,
  Js.dirname_loop s i m = Some e →
  1 ≤ e ∧ Js.isSlashAt s e = true ∧ (if m then e < i else e ≤ i).
Proof.
  induction i as [|i IH]; intros m e H; [done|].
  simpl in H. destruct (Js.isSlashAt s (S i)) eqn:Hs.
  - destruct m.
    + destruct (IH _ _ H) as (? & ? & ?). repeat split; [done|done|lia].
    + injection H as <-. repeat split; [lia|done|lia].
  - destruct (IH _ _ H) as (? & ? & ?). repeat split; [done|done|].
    destruct m; lia.
Qed.

Lemma parentKeyOf_split (s : string) :
  relativePath s = true →
  parentKeyOf s = ""
  ∨ ∃ rest, rest ≠ "" ∧ s = parentKeyOf s +:+ "/" +:+ rest.
Proof.
  unfold relativePath. intros [Hne Hrel]%andb_true_iff.
  apply negb_true_iff in Hne, Hrel.
  unfold parentKeyOf, Js.dirname.
  destruct (String.length s =? 0) eqn:Hlen; [by left|].
  rewrite Hrel. simpl.
  destruct (Js.dirname_loop s (String.length s - 1) true) as [e|] eqn:Hloop;
    [|by left].
  destruct (String.eqb (String.substring 0 e s) ".") eqn:Hdot; [by left|].
  right.
  destruct (dirname_loop_spec _ _ _ _ Hloop) as (He1 & Hslash & He2).
  destruct (get_split _ _ _ (isSlashAt_get _ _ Hslash)) as (rest & Heq & Hrest).
  exists rest. split; [|done].
  intros ->. simpl in Hrest. lia.
Qed.

(** ** The sort *)

Lemma elem_of_cons_skip {A} (a x y : A) (l : list A) :
  a ∈ x :: l → a ∈ x :: y :: l.
Proof. rewrite !elem_of_cons. tauto. Qed.



Section Sort.
Context {A : Type} (c : A → A → Z).

Lemma insert_perm (x : A) (l : list A) : Js.insert c x l ≡ₚ x :: l.
Proof.
  induction l as [|y l IH]; simpl; [done|].
  destruct (c x y <=? 0)%Z; [done|].
  rewrite IH. apply Permutation_swap.
Qed.

Lemma sort_perm (l : list A) : Js.sort c l ≡ₚ l.
Proof.
  induction l as [|x l IH]; simpl; [done|].
  by rewrite insert_perm, IH.
Qed.

Lemma sort_length (l : list A) : length (Js.sort c l) = length l.
Proof. by rewrite sort_perm. Qed.

(** On a list on whose elements the comparison is consistent, the sort
    gives a sorted list. *)
Lemma insert_sorted (x : A) (l : list A) :
  (∀ a b, a ∈ x :: l → b ∈ x :: l → (0 < c a b)%Z → (c b a <= 0)%Z) →
  (∀ a b d, a ∈ x :: l → b ∈ x :: l → d ∈ x :: l →
     (c a b <= 0)%Z → (c b d <= 0)%Z → (c a d <= 0)%Z) →
  StronglySorted (λ a b, (c a b <= 0)%Z) l →
  StronglySorted (λ a b, (c a b <= 0)%Z) (Js.insert c x l).
Proof.
  intros total trans Hl. revert total trans.
  induction Hl as [|y l Hs IH Hy]; intros total trans; simpl.
  - repeat constructor.
  - destruct (c x y <=? 0)%Z eqn:Hc.
    + apply Z.leb_le in Hc.
      constructor; [by constructor|].
      constructor; [done|].
      rewrite Forall_forall in Hy. apply Forall_forall. intros z Hz.
      apply (trans x y z); [by left|by right; left|by do 2 right|done|by apply Hy].
    + apply Z.leb_gt in Hc.
      constructor.
      * apply IH.
        -- intros a b Ha Hb. apply total; by apply elem_of_cons_skip.
        -- intros a b d Ha Hb Hd. apply trans; by apply elem_of_cons_skip.
      * rewrite insert_perm. constructor; [|done].
        apply total; [by left|by right; left|lia].
Qed.

Lemma sort_sorted (l : list A) :
  (∀ a b, a ∈ l → b ∈ l → (0 < c a b)%Z → (c b a <= 0)%Z) →
  (∀ a b d, a ∈ l → b ∈ l → d ∈ l →
     (c a b <= 0)%Z → (c b d <= 0)%Z → (c a d <= 0)%Z) →
  StronglySorted (λ a b, (c a b <= 0)%Z) (Js.sort c l).
Proof.
  induction l as [|x l IH]; intros total trans; simpl; [constructor|].
  apply insert_sorted.
  - intros a b. rewrite sort_perm. apply total.
  - intros a b d. rewrite sort_perm. apply trans.
  - apply IH.
    + intros a b Ha Hb. apply total; by right.
    + intros a b d Ha Hb Hd. apply trans; by right.
Qed.
End Sort.

Lemma filter_all_id {A} (P : A → Prop) `{∀ x, Decision (P x)} (l : list A) :
  Forall P l → filter P l = l.
Proof.
  induction 1 as [|x l Hx _ IH]; [done|]. by rewrite filter_cons_True, IH.
Qed.

Lemma filter_none_nil {A} (P : A → Prop) `{∀ x, Decision (P x)} (l : list A) :
  Forall (λ x, ¬ P x) l → filter P l = [].
Proof.
  induction 1 as [|x l Hx _ IH]; [done|]. by rewrite filter_cons_False, IH.
Qed.

(** ** What ECMAScript fixes of a sort *)

Lemma filter_ext_elem {A} (P Q : A → Prop) `{∀ x, Decision (P x)}
    `{∀ x, Decision (Q x)} (l : list A) :
  (∀ x, x ∈ l → P x ↔ Q x) → filter P l = filter Q l.
Proof.
  induction l as [|x l IH]; intros Hext; [done|].
  rewrite !filter_cons.
  rewrite IH by (intros y Hy; apply Hext; by right).
  destruct (decide (P x)) as [HP|HP], (decide (Q x)) as [HQ|HQ]; try done.
  - exfalso. apply HQ, (Hext x); [by left|done].
  - exfalso. apply HP, (Hext x); [by left|done].
Qed.

Section SortContract.
Context {A : Type} (c : A → A → Z).

Local Abbreviation tie x := (λ y : A, c x y = 0%Z).

Lemma consistentOn_subset (l l' : list A) :
  (∀ x, x ∈ l' → x ∈ l) → Js.consistentOn c l → Js.consistentOn c l'.
Proof.
  intros Hsub [Hanti Htrans]. split.
  - intros a b Ha Hb. apply Hanti; auto.
  - intros a b d Ha Hb Hd. apply Htrans; auto.
Qed.

Lemma consistentOn_refl (l : list A) (a : A) :
  Js.consistentOn c l → a ∈ l → c a a = 0%Z.
Proof.
  intros [Hanti _] Ha. pose proof (Hanti a a Ha Ha). lia.
Qed.

Lemma consistentOn_le_le (l : list A) (a b : A) :
  Js.consistentOn c l → a ∈ l → b ∈ l →
  (c a b <= 0)%Z → (c b a <= 0)%Z → c a b = 0%Z.
Proof.
  intros [Hanti _] Ha Hb Hab Hba. pose proof (Hanti b a Hb Ha). lia.
Qed.

Lemma consistentOn_tie_le (l : list A) (a b : A) :
  Js.consistentOn c l → a ∈ l → b ∈ l → c a b = 0%Z → (c b a <= 0)%Z.
Proof.
  intros [Hanti _] Ha Hb Hab. pose proof (Hanti b a Hb Ha). lia.
Qed.

Lemma sort_sorted_consistent (l : list A) :
  Js.consistentOn c l →
  StronglySorted (λ a b, (c a b <= 0)%Z) (Js.sort c l).
Proof.
  intros [Hanti Htrans]. apply sort_sorted.
  - intros a b Ha Hb Hab. apply (Hanti a b Ha Hb) in Hab. lia.
  - exact Htrans.
Qed.

(** The sort is stable: it keeps the elements that compare equal to [x] in
    the order they had. *)
Lemma insert_filter_tie (x a : A) (s : list A) :
  Js.consistentOn c (x :: a :: s) →
  filter (tie x) (Js.insert c a s) = filter (tie x) (a :: s).
Proof.
  induction s as [|y s IH]; intros Hcons; [done|].
  simpl. destruct (c a y <=? 0)%Z eqn:Hay; [done|].
  apply Z.leb_gt in Hay.
  assert (Js.consistentOn c (x :: a :: s)) as Hcons'.
  { eapply consistentOn_subset; [|exact Hcons].
    intros z. rewrite !elem_of_cons. tauto. }
  rewrite (filter_cons _ y), IH by done. rewrite !(filter_cons _ a), (filter_cons _ y).
  destruct (decide (tie x a)) as [Hxa|Hxa], (decide (tie x y)) as [Hxy|Hxy]; try done.
  exfalso. simpl in Hxa, Hxy. destruct Hcons as [_ Htrans].
  assert (c a x <= 0)%Z as Hax.
  { eapply (consistentOn_tie_le (x :: a :: s)); [done| | |done];
      rewrite !elem_of_cons; tauto. }
  assert (c a y <= 0)%Z; [|lia].
  apply (Htrans a x y); rewrite ?elem_of_cons; try tauto; lia.
Qed.

Lemma sort_stable (x : A) (l : list A) :
  Js.consistentOn c (x :: l) →
  filter (tie x) (Js.sort c l) = filter (tie x) l.
Proof.
  induction l as [|a l IH]; intros Hcons; [done|].
  simpl. rewrite insert_filter_tie.
  - rewrite !(filter_cons _ a), IH; [done|].
    eapply consistentOn_subset; [|exact Hcons].
    intros z. rewrite !elem_of_cons. tauto.
  - eapply consistentOn_subset; [|exact Hcons].
    intros z. rewrite !elem_of_cons, sort_perm. tauto.
Qed.

(** The model of the sort is one of the sorts that ECMAScript allows. *)
Lemma sort_sortResult (l : list A) : Js.sortResult c l (Js.sort c l).
Proof.
  split; [apply sort_perm|]. intros Hcons.
  split; [by apply sort_sorted_consistent|].
  intros x Hx. apply sort_stable.
  eapply consistentOn_subset; [|exact Hcons].
  intros z [->|Hz]%elem_of_cons; done.
Qed.

(** A consistent comparison leaves one sorted and stable rearrangement. *)
Lemma sorted_stable_unique (s1 : list A) : ∀ s2,
  s1 ≡ₚ s2 →
  Js.consistentOn c s1 →
  StronglySorted (λ a b, (c a b <= 0)%Z) s1 →
  StronglySorted (λ a b, (c a b <= 0)%Z) s2 →
  (∀ x, x ∈ s1 → filter (tie x) s1 = filter (tie x) s2) →
  s1 = s2.
Proof.
  induction s1 as [|x s1 IH]; intros s2 Hperm Hcons Hs1 Hs2 Hties.
  - by apply Permutation_nil_l in Hperm.
  - destruct s2 as [|y s2]; [by apply Permutation_nil_r in Hperm|].
    apply StronglySorted_inv in Hs1 as [Hs1 Hx].
    apply StronglySorted_inv in Hs2 as [Hs2 Hy].
    rewrite Forall_forall in Hx, Hy.
    assert (x ∈ x :: s1) as Hxin by (by left).
    assert (y ∈ x :: s1) as Hyin by (rewrite Hperm; by left).
    assert (c x x = 0%Z) as Hxx by (by eapply consistentOn_refl).
    assert (c x y = 0%Z) as Hxy.
    { eapply consistentOn_le_le; [done..| |].
      - apply elem_of_cons in Hyin as [->|Hyin]; [lia|by apply Hx].
      - assert (x ∈ y :: s2) as [->|Hxin']%elem_of_cons by (rewrite <- Hperm; by left);
          [lia|by apply Hy]. }
    pose proof (Hties x Hxin) as Hhead.
    rewrite !filter_cons in Hhead.
    destruct (decide (tie x x)) as [_|Hne]; [|done].
    destruct (decide (tie x y)) as [_|Hne]; [|done].
    injection Hhead as <- _. f_equal.
    apply IH; [by eapply Permutation_cons_inv| |done|done|].
    + eapply consistentOn_subset; [|exact Hcons]. intros z Hz. by right.
    + intros z Hz. assert (z ∈ x :: s1) as Hzin by (by right).
      pose proof (Hties z Hzin) as Hz'. rewrite !filter_cons in Hz'.
      destruct (decide (tie z x)); [by injection Hz'|done].
Qed.

Lemma consistentOn_perm (l l' : list A) :
  l ≡ₚ l' → Js.consistentOn c l → Js.consistentOn c l'.
Proof.
  intros Hperm. apply consistentOn_subset. intros x. by rewrite Hperm.
Qed.

Lemma sortResult_unique (l s1 s2 : list A) :
  Js.consistentOn c l →
  Js.sortResult c l s1 → Js.sortResult c l s2 → s1 = s2.
Proof.
  intros Hcons [Hp1 H1] [Hp2 H2].
  destruct (H1 Hcons) as [Hs1 Ht1]. destruct (H2 Hcons) as [Hs2 Ht2].
  apply sorted_stable_unique; [by rewrite Hp1, Hp2| |done|done|].
  - eapply consistentOn_perm; [|exact Hcons]. done.
  - intros x Hx. rewrite Hp1 in Hx. by rewrite Ht1, Ht2.
Qed.

End SortContract.

Lemma StronglySorted_lookup_lt {A} (R : A → A → Prop) (l : list A) :
  StronglySorted R l →
  ∀ i j a b, l !! i = Some a → l !! j = Some b → i < j → R a b.
Proof.
  induction 1 as [|x l Hs IH Hx]; intros i j a b Hi Hj Hlt; [done|].
  destruct j as [|j]; [lia|]. destruct i as [|i]; simpl in *.
  - injection Hi as <-. rewrite Forall_forall in Hx.
    apply Hx. by eapply list_elem_of_lookup_2.
  - eapply IH; [exact Hi|exact Hj|lia].
Qed.

Lemma StronglySorted_ext_elem {A} (R R' : A → A → Prop) (l : list A) :
  (∀ a b, a ∈ l → b ∈ l → R a b → R' a b) →
  StronglySorted R l → StronglySorted R' l.
Proof.
  intros Hext Hs. induction Hs as [|x l Hs IH Hx]; [constructor|].
  constructor.
  - apply IH. intros a b Ha Hb. apply Hext; by right.
  - rewrite Forall_forall in Hx. apply Forall_forall. intros y Hy.
    apply Hext; [by left|by right|by apply Hx].
Qed.

(** What a sort may leave depends on the comparison only through its values
    on the elements. *)
Lemma consistentOn_ext {A} (c1 c2 : A → A → Z) (l : list A) :
  (∀ a b, a ∈ l → b ∈ l → c1 a b = c2 a b) →
  Js.consistentOn c1 l → Js.consistentOn c2 l.
Proof.
  intros Hext [Hanti Htrans]. split.
  - intros a b Ha Hb. rewrite <- !Hext by done. by apply Hanti.
  - intros a b d Ha Hb Hd. rewrite <- !Hext by done. by apply Htrans.
Qed.

Lemma sortResult_ext {A} (c1 c2 : A → A → Z) (l s : list A) :
  (∀ a b, a ∈ l → b ∈ l → c1 a b = c2 a b) →
  Js.sortResult c1 l s → Js.sortResult c2 l s.
Proof.
  intros Hext [Hperm H]. split; [done|]. intros Hcons.
  destruct H as [Hs Ht].
  { eapply consistentOn_ext; [|exact Hcons]. intros a b Ha Hb. symmetry. by apply Hext. }
  split.
  - eapply StronglySorted_ext_elem; [|exact Hs].
    intros a b Ha Hb. simpl. rewrite Hperm in Ha, Hb. by rewrite Hext.
  - intros x Hx.
    rewrite <- (filter_ext_elem (λ y, c1 x y = 0%Z) (λ y, c2 x y = 0%Z) s)
      by (intros y Hy; rewrite Hperm in Hy; by rewrite Hext).
    rewrite <- (filter_ext_elem (λ y, c1 x y = 0%Z) (λ y, c2 x y = 0%Z) l)
      by (intros y Hy; by rewrite Hext).
    by apply Ht.
Qed.

(** In a list sorted by an antisymmetric comparison, an element that compares
    less than another comes before it. *)
Lemma sorted_before (cmp : string → string → Z) (l : list string) :
  antisymmetricCmp cmp → sortedBy cmp l →
  ∀ i j a b, l !! i = Some a → l !! j = Some b → (cmp a b < 0)%Z → i < j.
Proof.
  intros Hanti Hs. induction Hs as [|x l Hs IH Hx]; intros i j a b Hi Hj Hab.
  - by rewrite lookup_nil in Hi.
  - destruct i as [|i], j as [|j]; simpl in *.
    + injection Hi as ->. injection Hj as ->.
      exfalso. pose proof (proj2 (Hanti b b) Hab). lia.
    + lia.
    + injection Hj as ->.
      exfalso. rewrite Forall_forall in Hx.
      assert (cmp b a <= 0)%Z as Hba
        by (apply Hx; eapply list_elem_of_lookup_2; exact Hi).
      pose proof (proj2 (Hanti b a) Hab). lia.
    + apply Nat.succ_lt_mono with (n := i). eauto using Nat.succ_lt_mono.
Qed.

(** ** The sort of the listing *)

Section SortEntries.
Variable localeCompare : string → string → Z.
Local Abbreviation cmpE := (compareEntries localeCompare).

Lemma compareEntries_same_type (a b : entry) :
  type a = type b → cmpE a b = localeCompare (path a) (path b).
Proof.
  intros H. unfold compareEntries. rewrite H, String.eqb_refl. done.
Qed.

Lemma compareEntries_tree_blob (a b : entry) :
  isTree a = true → isBlob b = true → cmpE a b = (-1)%Z.
Proof.
  unfold isTree, isBlob, compareEntries. intros Ha Hb.
  apply String.eqb_eq in Ha, Hb. by rewrite Ha, Hb.
Qed.

Lemma compareEntries_blob_tree (a b : entry) :
  isBlob a = true → isTree b = true → cmpE a b = 1%Z.
Proof.
  unfold isTree, isBlob, compareEntries. intros Ha Hb.
  apply String.eqb_eq in Ha, Hb. by rewrite Ha, Hb.
Qed.

(** The comparison is not consistent on a file and an entry of a third
    type: each comes after the other. *)
Lemma compareEntries_blob_commit (a b : string) :
  cmpE (Entry a "blob") (Entry b "commit") = 1%Z
  ∧ cmpE (Entry b "commit") (Entry a "blob") = 1%Z.
Proof. done. Qed.

Lemma same_type (test : entry → bool) (a b : entry) :
  test = isTree ∨ test = isBlob → test a = true → test b = true → type a = type b.
Proof.
  intros [-> | ->]; unfold isTree, isBlob; intros Ha Hb;
    apply String.eqb_eq in Ha, Hb; congruence.
Qed.

Lemma known_type (tree : list entry) (e : entry) :
  treesAndBlobs tree = true → e ∈ tree → isTree e = true ∨ isBlob e = true.
Proof.
  unfold treesAndBlobs. rewrite forallb_forall. intros H He.
  apply list_elem_of_In, H in He. by apply orb_true_iff.
Qed.

Hypothesis antisym : antisymmetricCmp localeCompare.
Hypothesis trans : transitiveCmp localeCompare.

(** On directories and files the comparison is consistent. *)
Lemma compareEntries_total (a b : entry) :
  isTree a = true ∨ isBlob a = true → isTree b = true ∨ isBlob b = true →
  (0 < cmpE a b)%Z → (cmpE b a <= 0)%Z.
Proof.
  intros [Ha|Ha] [Hb|Hb].
  - rewrite !compareEntries_same_type by (by eapply (same_type isTree); eauto).
    intros H. apply antisym in H. lia.
  - rewrite compareEntries_tree_blob by done. lia.
  - rewrite (compareEntries_tree_blob b a) by done. lia.
  - rewrite !compareEntries_same_type by (by eapply (same_type isBlob); eauto).
    intros H. apply antisym in H. lia.
Qed.

Lemma compareEntries_trans (a b d : entry) :
  isTree a = true ∨ isBlob a = true → isTree b = true ∨ isBlob b = true →
  isTree d = true ∨ isBlob d = true →
  (cmpE a b <= 0)%Z → (cmpE b d <= 0)%Z → (cmpE a d <= 0)%Z.
Proof.
  intros [Ha|Ha] [Hb|Hb] [Hd|Hd];
    rewrite ?(compareEntries_tree_blob a b), ?(compareEntries_tree_blob b d),
      ?(compareEntries_tree_blob a d), ?(compareEntries_blob_tree a b),
      ?(compareEntries_blob_tree b d), ?(compareEntries_blob_tree a d) by done;
    try lia.
  - rewrite !compareEntries_same_type by (by eapply (same_type isTree); eauto).
    apply trans.
  - rewrite !compareEntries_same_type by (by eapply (same_type isBlob); eauto).
    apply trans.
Qed.

Lemma sorted_listing (tree : list entry) :
  treesAndBlobs tree = true →
  StronglySorted (λ a b, (cmpE a b <= 0)%Z) (Js.sort cmpE tree).
Proof.
  intros Hknown. apply sort_sorted.
  - intros a b Ha Hb. apply compareEntries_total; by eapply known_type.
  - intros a b d Ha Hb Hd. apply compareEntries_trans; by eapply known_type.
Qed.

(** The paths of one type of a sorted listing are sorted. *)
Lemma pathsOf_sorted (test : entry → bool) (l : list entry) :
  test = isTree ∨ test = isBlob →
  StronglySorted (λ a b, (cmpE a b <= 0)%Z) l →
  sortedBy localeCompare (pathsOf test l).
Proof.
  intros Htest Hl. unfold sortedBy, pathsOf.
  induction Hl as [|x l Hs IH Hx]; [constructor|].
  rewrite filter_cons. destruct (decide (test x = true)) as [Hx'|]; [|done].
  simpl. constructor; [done|].
  rewrite Forall_forall in Hx. apply Forall_forall.
  intros s (y & -> & [Hy Hin]%list_elem_of_filter)%list_elem_of_fmap.
  rewrite <- compareEntries_same_type by (by eapply same_type).
  by apply Hx.
Qed.
End SortEntries.

Section SortEntriesMore.
Variable localeCompare : string → string → Z.
Local Abbreviation cmpE := (compareEntries localeCompare).

(** A directory compares consistently with every entry, whatever its type:
    less than an entry of another type, and by path with a directory. *)
Lemma compareEntries_tree_other (a b : entry) :
  isTree a = true → isTree b = false → cmpE a b = (-1)%Z.
Proof.
  unfold isTree, compareEntries. intros Ha Hb.
  apply String.eqb_eq in Ha. rewrite Ha in *.
  rewrite String.eqb_sym in Hb. by rewrite Hb.
Qed.

Lemma compareEntries_other_tree (a b : entry) :
  isTree a = false → isTree b = true → cmpE a b = 1%Z.
Proof.
  unfold isTree, compareEntries. intros Ha Hb.
  apply String.eqb_eq in Hb. rewrite Hb in *. by rewrite Ha.
Qed.

(** So the directories stay first and among themselves when an entry is
    inserted in a list that has its directories first. *)
Lemma insert_tree_first (x : entry) (ts os : list entry) :
  isTree x = true →
  Forall (λ e, isTree e = false) os →
  Js.insert cmpE x (ts ++ os) = Js.insert cmpE x ts ++ os.
Proof.
  intros Hx Hos. induction ts as [|y ts IH]; simpl.
  - destruct Hos as [|o os Ho _]; [done|]. simpl.
    by rewrite compareEntries_tree_other.
  - destruct (cmpE x y <=? 0)%Z; [done|]. by rewrite IH.
Qed.

Lemma insert_other_last (x : entry) (ts os : list entry) :
  isTree x = false →
  Forall (λ e, isTree e = true) ts →
  Js.insert cmpE x (ts ++ os) = ts ++ Js.insert cmpE x os.
Proof.
  intros Hx Hts. induction Hts as [|y ts Hy _ IH]; [done|]. simpl.
  rewrite compareEntries_other_tree by done. simpl. by rewrite IH.
Qed.

Lemma sort_trees_first (tree : list entry) :
  ∃ os, Js.sort cmpE tree
        = Js.sort cmpE (filter (λ e, isTree e = true) tree) ++ os
        ∧ Forall (λ e, isTree e = false) os.
Proof.
  induction tree as [|x tree (os & Heq & Hos)]; [by exists []|].
  change (Js.sort cmpE (x :: tree)) with (Js.insert cmpE x (Js.sort cmpE tree)).
  rewrite Heq, filter_cons. destruct (decide (isTree x = true)) as [Hx|Hx].
  - exists os. split; [|done]. by apply insert_tree_first.
  - apply not_true_is_false in Hx.
    exists (Js.insert cmpE x os). split.
    + apply insert_other_last; [done|].
      apply Forall_forall. intros e He. rewrite sort_perm in He.
      by apply list_elem_of_filter in He as [? _].
    + apply Forall_forall. intros e He. rewrite insert_perm in He.
      apply elem_of_cons in He as [->|He]; [done|].
      rewrite Forall_forall in Hos. by apply Hos.
Qed.

Lemma pathsOf_app (test : entry → bool) (l l' : list entry) :
  pathsOf test (l ++ l') = pathsOf test l ++ pathsOf test l'.
Proof. unfold pathsOf. by rewrite filter_app, map_app. Qed.

Lemma pathsOf_none (test : entry → bool) (l : list entry) :
  Forall (λ e, test e = false) l → pathsOf test l = [].
Proof.
  intros H. unfold pathsOf. rewrite filter_none_nil; [done|].
  eapply Forall_impl; [exact H|]. simpl. intros e He. congruence.
Qed.

(** The directories of the sorted listing are the sorted directories. *)
Lemma dirs_of_sort (tree : list entry) :
  pathsOf isTree (Js.sort cmpE tree)
  = pathsOf isTree (Js.sort cmpE (filter (λ e, isTree e = true) tree)).
Proof.
  destruct (sort_trees_first tree) as (os & -> & Hos).
  by rewrite pathsOf_app, (pathsOf_none _ os), app_nil_r.
Qed.

Lemma compareEntries_ext (lc : string → string → Z) (tree : list entry) :
  (∀ a b, a ∈ tree → b ∈ tree →
     localeCompare (path a) (path b) = lc (path a) (path b)) →
  ∀ a b, a ∈ tree → b ∈ tree → cmpE a b = compareEntries lc a b.
Proof.
  intros Hext a b Ha Hb. unfold compareEntries.
  destruct (negb (String.eqb (type a) (type b))); [done|]. by apply Hext.
Qed.

(** On a listing with a file and a submodule the comparison is not
    consistent. *)
Lemma compareEntries_mixed (f m : string) (tree : list entry) :
  Entry f "blob" ∈ tree → Entry m "commit" ∈ tree →
  ¬ Js.consistentOn cmpE tree.
Proof.
  intros Hf Hm [Hanti _].
  pose proof (Hanti _ _ Hf Hm) as H.
  destruct (compareEntries_blob_commit localeCompare f m) as [H1 H2].
  rewrite H1, H2 in H. lia.
Qed.

Hypothesis antisym : antisymmetricCmp localeCompare.
Hypothesis trans : transitiveCmp localeCompare.

(** Under a consistent collation the comparison is consistent on a listing
    of directories and files. *)
Lemma compareEntries_consistent (tree : list entry) :
  treesAndBlobs tree = true → Js.consistentOn cmpE tree.
Proof.
  intros Hknown. split.
  - intros a b Ha Hb.
    destruct (known_type _ _ Hknown Ha) as [Hta|Hba],
             (known_type _ _ Hknown Hb) as [Htb|Hbb].
    + rewrite !compareEntries_same_type by (by eapply (same_type isTree); eauto).
      apply antisym.
    + rewrite (compareEntries_tree_blob _ a b), (compareEntries_blob_tree _ b a) by done.
      lia.
    + rewrite (compareEntries_blob_tree _ a b), (compareEntries_tree_blob _ b a) by done.
      lia.
    + rewrite !compareEntries_same_type by (by eapply (same_type isBlob); eauto).
      apply antisym.
  - intros a b d Ha Hb Hd.
    apply compareEntries_trans; try done; by eapply known_type.
Qed.

(** The directories of the sorted listing are in collation order, whatever
    else is listed. *)
Lemma sort_dirs_sorted (tree : list entry) :
  sortedBy localeCompare (pathsOf isTree (Js.sort cmpE tree)).
Proof.
  rewrite dirs_of_sort. apply pathsOf_sorted; [by left|].
  apply sort_sorted.
  - intros a b [Ha _]%list_elem_of_filter [Hb _]%list_elem_of_filter.
    apply compareEntries_total; by eauto.
  - intros a b d [Ha _]%list_elem_of_filter [Hb _]%list_elem_of_filter
      [Hd _]%list_elem_of_filter.
    apply compareEntries_trans; by eauto.
Qed.

End SortEntriesMore.

(** ** The two passes *)

Lemma wfState_initial : wfState initial.
Proof.
  repeat split.
  - intros [|i] n H; simpl in H; [by injection H as <-|by rewrite lookup_nil in H].
  - intros k j H. simpl in H. apply lookup_singleton_Some in H as [_ <-]. simpl. lia.
Qed.

Lemma makeNode_wf (kind : string) (e : entry) (st : state) :
  wfState st →
  makeNode kind e st
  = Some (Node kind (path e) (length (nodes st)) (pidOf (dirMap st) (path e))).
Proof.
  intros (Hid & Hnodes & Hmap). unfold makeNode, pidOf. rewrite Hid.
  destruct (dirMap st !! parentKeyOf (path e)) as [j|] eqn:Hj; [|done].
  destruct (j =? 0); [done|].
  destruct (lookup_lt_is_Some_2 (nodes st) j (Hmap _ _ Hj)) as [parent Hp].
  rewrite Hp. by rewrite (Hnodes _ _ Hp).
Qed.

Lemma wfState_push_dir (st : state) (n : node) (d : string) :
  wfState st → id n = length (nodes st) →
  wfState (State (nodes st ++ [n]) (<[d := length (nodes st)]> (dirMap st))
                 (S (nextId st))).
Proof.
  intros (Hid & Hnodes & Hmap) Hn. repeat split; simpl.
  - rewrite length_app. simpl. lia.
  - intros i m Hi. apply lookup_app_Some in Hi as [Hi|[Hlen Hi]]; [eauto|].
    apply list_lookup_singleton_Some in Hi as [Hi <-]. lia.
  - intros k j Hk. rewrite length_app. simpl.
    apply lookup_insert_Some in Hk as [[_ <-]|[_ Hk]]; [lia|].
    apply Hmap in Hk. lia.
Qed.

Lemma wfState_push_file (st : state) (n : node) :
  wfState st → id n = length (nodes st) →
  wfState (State (nodes st ++ [n]) (dirMap st) (S (nextId st))).
Proof.
  intros (Hid & Hnodes & Hmap) Hn. repeat split; simpl.
  - rewrite length_app. simpl. lia.
  - intros i m Hi. apply lookup_app_Some in Hi as [Hi|[Hlen Hi]]; [eauto|].
    apply list_lookup_singleton_Some in Hi as [Hi <-]. lia.
  - intros k j Hk. rewrite length_app. apply Hmap in Hk. lia.
Qed.

Lemma length_dirNodes (ds : list string) : ∀ base dm,
  length (dirNodes base ds dm) = length ds.
Proof. induction ds as [|d ds IH]; intros; simpl; [done|by rewrite IH]. Qed.

Lemma length_fileNodes (fs : list string) : ∀ base dm,
  length (fileNodes base fs dm) = length fs.
Proof. induction fs as [|f fs IH]; intros; simpl; [done|by rewrite IH]. Qed.

Lemma pathsOf_cons (test : entry → bool) (e : entry) (es : list entry) :
  pathsOf test (e :: es)
  = if test e then path e :: pathsOf test es else pathsOf test es.
Proof.
  unfold pathsOf. destruct (test e) eqn:He.
  - by rewrite filter_cons_True.
  - rewrite filter_cons_False; [done|congruence].
Qed.

Lemma firstPass_closed (es : list entry) : ∀ st,
  wfState st →
  firstPass es st
  = Some (State (nodes st ++ dirNodes (length (nodes st)) (pathsOf isTree es) (dirMap st))
                (dirsMap (length (nodes st)) (pathsOf isTree es) (dirMap st))
                (nextId st + length (pathsOf isTree es))).
Proof.
  induction es as [|e es IH]; intros st Hwf.
  - simpl. rewrite app_nil_r, Nat.add_0_r. by destruct st.
  - simpl. rewrite pathsOf_cons. destruct (isTree e); simpl.
    + rewrite makeNode_wf by done.
      rewrite IH by (by apply wfState_push_dir). simpl.
      rewrite length_app, <- app_assoc, Nat.add_1_r. simpl.
      by rewrite Nat.add_succ_r.
    + by apply IH.
Qed.

Lemma secondPass_closed (es : list entry) : ∀ st,
  wfState st →
  secondPass es st
  = Some (State (nodes st ++ fileNodes (length (nodes st)) (pathsOf isBlob es) (dirMap st))
                (dirMap st)
                (nextId st + length (pathsOf isBlob es))).
Proof.
  induction es as [|e es IH]; intros st Hwf.
  - simpl. rewrite app_nil_r, Nat.add_0_r. by destruct st.
  - simpl. rewrite pathsOf_cons. destruct (isBlob e); simpl.
    + rewrite makeNode_wf by done.
      rewrite IH by (by apply wfState_push_file). simpl.
      rewrite length_app, <- app_assoc, Nat.add_1_r. simpl.
      by rewrite Nat.add_succ_r.
    + by apply IH.
Qed.

Lemma wfState_firstPass (es : list entry) : ∀ st st',
  wfState st → firstPass es st = Some st' → wfState st'.
Proof.
  induction es as [|e es IH]; intros st st' Hwf H; simpl in H.
  - by injection H as <-.
  - destruct (isTree e); simpl in H; [|eauto].
    rewrite makeNode_wf in H by done.
    eapply IH; [|exact H]. by apply wfState_push_dir.
Qed.

(** The two passes never throw, and end in the closed form. *)
Lemma passes_closed (entries : list entry) :
  passes entries = Some (stateOf entries).
Proof.
  unfold passes.
  pose proof (firstPass_closed entries _ wfState_initial) as H1.
  pose proof (wfState_firstPass _ _ _ wfState_initial H1) as Hwf1.
  rewrite H1. simpl. rewrite secondPass_closed by exact Hwf1.
  simpl. by rewrite length_dirNodes.
Qed.

Lemma rawState_stateOf (localeCompare : string → string → Z) (tree : list entry) :
  rawState localeCompare tree
  = stateOf (Js.sort (compareEntries localeCompare) tree).
Proof. reflexivity. Qed.

Lemma buildRaw_closed (localeCompare : string → string → Z) (tree : list entry) :
  buildRaw localeCompare tree = Some (rawState localeCompare tree).
Proof. unfold buildRaw. apply passes_closed. Qed.

Lemma generate_closed (entries : list entry) :
  generate entries = Some (trim (stateOf entries)).
Proof. unfold generate. by rewrite passes_closed. Qed.

Lemma buildTopology_generate (localeCompare : string → string → Z)
    (tree : list entry) :
  buildTopology localeCompare tree
  = generate (Js.sort (compareEntries localeCompare) tree).
Proof. reflexivity. Qed.

(** ** The directory map *)

Lemma lastIndex_Some (k : string) (ds : list string) : ∀ i,
  lastIndex k ds = Some i →
  ds !! i = Some k ∧ ∀ j, ds !! j = Some k → j ≤ i.
Proof.
  induction ds as [|d ds IH]; intros i H; [done|].
  simpl in H. destruct (lastIndex k ds) as [i'|] eqn:Hl.
  - injection H as <-. destruct (IH _ eq_refl) as [Hi Hmax].
    split; [done|]. intros [|j] Hj; [lia|]. apply Hmax in Hj. lia.
  - destruct (String.eqb d k) eqn:Hd; [|done]. injection H as <-.
    apply String.eqb_eq in Hd as ->. split; [done|].
    intros [|j] Hj; [done|]. exfalso. simpl in Hj.
    clear IH. revert j Hj. induction ds as [|d' ds IH']; intros j Hj; [done|].
    simpl in Hl. destruct (lastIndex k ds) eqn:Hl'; [done|].
    destruct (String.eqb d' k) eqn:Hd'; [done|].
    destruct j as [|j]; simpl in Hj.
    + injection Hj as ->. by rewrite String.eqb_refl in Hd'.
    + by eapply IH'.
Qed.

Lemma lastIndex_None (k : string) (ds : list string) :
  lastIndex k ds = None → k ∉ ds.
Proof.
  induction ds as [|d ds IH]; intros H; [by apply not_elem_of_nil|].
  simpl in H. destruct (lastIndex k ds); [done|].
  destruct (String.eqb d k) eqn:Hd; [done|].
  apply not_elem_of_cons. split; [|by apply IH].
  intros ->. by rewrite String.eqb_refl in Hd.
Qed.

Lemma lastIndex_elem_of (k : string) (ds : list string) :
  k ∈ ds → is_Some (lastIndex k ds).
Proof.
  intros H. destruct (lastIndex k ds) eqn:Hl; [by eexists|].
  by apply lastIndex_None in Hl.
Qed.

Lemma lastIndex_take (k : string) (ds : list string) : ∀ i,
  (∀ j, ds !! j = Some k → j < i) →
  lastIndex k (take i ds) = lastIndex k ds.
Proof.
  induction ds as [|d ds IH]; intros i H; [by destruct i|].
  destruct i as [|i]; simpl.
  - assert (k ∉ d :: ds) as Hk.
    { intros [j Hj]%list_elem_of_lookup_1. apply H in Hj. lia. }
    destruct (lastIndex k ds) eqn:Hl.
    + exfalso. apply Hk. right.
      apply lastIndex_Some in Hl as [Hl _]. by eapply list_elem_of_lookup_2.
    + destruct (String.eqb d k) eqn:Hd; [|done].
      exfalso. apply Hk. apply String.eqb_eq in Hd as ->. by left.
  - rewrite IH; [done|]. intros j Hj. specialize (H (S j) Hj). lia.
Qed.

Lemma dirsMap_lookup (k : string) (ds : list string) : ∀ base (dm : gmap string nat),
  dirsMap base ds dm !! k
  = match lastIndex k ds with
    | Some i => Some (base + i)
    | None => dm !! k
    end.
Proof.
  induction ds as [|d ds IH]; intros base dm; [done|].
  simpl. rewrite IH. destruct (lastIndex k ds) as [i|].
  - f_equal. lia.
  - destruct (String.eqb d k) eqn:Hd.
    + apply String.eqb_eq in Hd as ->. rewrite lookup_insert_eq. f_equal. lia.
    + rewrite lookup_insert_ne; [done|]. intros ->. by rewrite String.eqb_refl in Hd.
Qed.

Lemma dirsMap_take_lookup (k : string) (ds : list string) (i base : nat)
    (dm : gmap string nat) :
  (∀ j, ds !! j = Some k → j < i) →
  dirsMap base (take i ds) dm !! k = dirsMap base ds dm !! k.
Proof. intros H. by rewrite !dirsMap_lookup, lastIndex_take. Qed.

(** ** The nodes *)

Lemma dirNodes_lookup (ds : list string) : ∀ base dm i,
  dirNodes base ds dm !! i
  = (λ d, Node "d" d (base + i) (pidOf (dirsMap base (take i ds) dm) d)) <$> ds !! i.
Proof.
  induction ds as [|d ds IH]; intros base dm i; [done|].
  destruct i as [|i]; simpl.
  - by rewrite Nat.add_0_r.
  - rewrite IH. by rewrite Nat.add_succ_r.
Qed.

Lemma fileNodes_lookup (fs : list string) : ∀ base dm i,
  fileNodes base fs dm !! i
  = (λ f, Node "f" f (base + i) (pidOf dm f)) <$> fs !! i.
Proof.
  induction fs as [|f fs IH]; intros base dm i; [done|].
  destruct i as [|i]; simpl.
  - by rewrite Nat.add_0_r.
  - rewrite IH. by rewrite Nat.add_succ_r.
Qed.

Lemma map_id_dirNodes (ds : list string) : ∀ base dm,
  map id (dirNodes base ds dm) = seq base (length ds).
Proof. induction ds as [|d ds IH]; intros; simpl; [done|by rewrite IH]. Qed.

Lemma map_id_fileNodes (fs : list string) : ∀ base dm,
  map id (fileNodes base fs dm) = seq base (length fs).
Proof. induction fs as [|f fs IH]; intros; simpl; [done|by rewrite IH]. Qed.

Lemma map_p_dirNodes (ds : list string) : ∀ base dm,
  map p (dirNodes base ds dm) = ds.
Proof. induction ds as [|d ds IH]; intros; simpl; [done|by rewrite IH]. Qed.

Lemma map_p_fileNodes (fs : list string) : ∀ base dm,
  map p (fileNodes base fs dm) = fs.
Proof. induction fs as [|f fs IH]; intros; simpl; [done|by rewrite IH]. Qed.

Lemma map_t_dirNodes (ds : list string) : ∀ base dm,
  map t (dirNodes base ds dm) = replicate (length ds) "d".
Proof. induction ds as [|d ds IH]; intros; simpl; [done|by rewrite IH]. Qed.

Lemma map_t_fileNodes (fs : list string) : ∀ base dm,
  map t (fileNodes base fs dm) = replicate (length fs) "f".
Proof. induction fs as [|f fs IH]; intros; simpl; [done|by rewrite IH]. Qed.

(** ** The edge loops *)

Lemma edgeOf_parentIdxOf dm inRange i nd :
  edgeOf dm inRange i nd
  = match parentIdxOf dm inRange nd with
    | Some parentIdx => [i; parentIdx]
    | None => []
    end.
Proof.
  unfold edgeOf, parentIdxOf.
  destruct (dm !! parentKeyOf (p nd)) as [j|]; [|done]. by destruct (inRange j).
Qed.

Lemma edgesFrom_flatten dm inRange (ns : list node) : ∀ i,
  edgesFrom dm inRange i ns = flatten (pairsFrom dm inRange i ns).
Proof.
  induction ns as [|nd ns IH]; intros i; [done|].
  simpl. rewrite edgeOf_parentIdxOf, IH.
  by destruct (parentIdxOf dm inRange nd).
Qed.

Lemma pairsOf_flatten (ps : list (nat * nat)) : pairsOf (flatten ps) = ps.
Proof.
  induction ps as [|[c q] ps IH]; [done|]. simpl. by rewrite IH.
Qed.

Lemma pairsOf_edgesFrom dm inRange (ns : list node) (i : nat) :
  pairsOf (edgesFrom dm inRange i ns) = pairsFrom dm inRange i ns.
Proof. by rewrite edgesFrom_flatten, pairsOf_flatten. Qed.

Lemma elem_of_pairsFrom dm inRange (ns : list node) : ∀ i c q,
  (c, q) ∈ pairsFrom dm inRange i ns
  ↔ ∃ nd, i ≤ c ∧ ns !! (c - i) = Some nd ∧ parentIdxOf dm inRange nd = Some q.
Proof.
  induction ns as [|nd ns IH]; intros i c q.
  - simpl. split; [by intros ?%elem_of_nil|by intros (? & _ & ? & _)].
  - simpl. assert ((c, q) ∈ pairsFrom dm inRange (S i) ns
                   ↔ ∃ nd', S i ≤ c ∧ (nd :: ns) !! (c - i) = Some nd'
                            ∧ parentIdxOf dm inRange nd' = Some q) as Htail.
    { rewrite IH. split; intros (nd' & Hle & Hl & Hp); exists nd';
        (split; [done|split; [|done]]).
      - replace (c - i) with (S (c - S i)) by lia. done.
      - replace (c - i) with (S (c - S i)) in Hl by lia. done. }
    destruct (parentIdxOf dm inRange nd) as [j|] eqn:Hnd.
    + rewrite elem_of_cons, Htail. split.
      * intros [[= -> ->]|(nd' & Hle & Hl & Hp)].
        -- exists nd. rewrite Nat.sub_diag. done.
        -- exists nd'. split; [lia|done].
      * intros (nd' & Hle & Hl & Hp).
        destruct (decide (c = i)) as [->|Hne].
        -- left. rewrite Nat.sub_diag in Hl. simpl in Hl. injection Hl as <-. congruence.
        -- right. exists nd'. split; [lia|done].
    + rewrite Htail. split.
      * intros (nd' & Hle & Hl & Hp). exists nd'. split; [lia|done].
      * intros (nd' & Hle & Hl & Hp). exists nd'. split; [|done].
        destruct (decide (c = i)) as [->|Hne]; [|lia].
        rewrite Nat.sub_diag in Hl. simpl in Hl. injection Hl as <-. congruence.
Qed.

(** The children of the pairs are increasing indices of the loop. *)
Lemma pairsFrom_children dm inRange (ns : list node) : ∀ i,
  map fst (pairsFrom dm inRange i ns) `sublist_of` seq i (length ns).
Proof.
  induction ns as [|nd ns IH]; intros i; simpl; [done|].
  destruct (parentIdxOf dm inRange nd); simpl.
  - by apply sublist_skip.
  - by apply sublist_cons.
Qed.

Lemma pairsFrom_all dm inRange (ns : list node) : ∀ i,
  Forall (λ nd, is_Some (parentIdxOf dm inRange nd)) ns →
  map fst (pairsFrom dm inRange i ns) = seq i (length ns).
Proof.
  induction ns as [|nd ns IH]; intros i Hall; simpl; [done|].
  apply Forall_cons in Hall as [[j Hj] Hall]. rewrite Hj. simpl.
  by rewrite IH.
Qed.

Lemma pairsFrom_count dm inRange (ns : list node) : ∀ i,
  length (pairsFrom dm inRange i ns)
  + length (filter (λ nd, parentIdxOf dm inRange nd = None) ns)
  = length ns.
Proof.
  induction ns as [|nd ns IH]; intros i; simpl; [done|].
  destruct (parentIdxOf dm inRange nd) eqn:Hnd.
  - rewrite filter_cons_False by (rewrite Hnd; done). simpl. by rewrite IH.
  - rewrite filter_cons_True by done. simpl. rewrite Nat.add_succ_r. by rewrite IH.
Qed.

Lemma pairsFrom_from dm g (ns : list node) : ∀ i,
  Forall (λ e, i ≤ e.1) (pairsFrom dm g i ns).
Proof.
  intros i. apply Forall_forall. intros [c q] (nd & Hc & _)%elem_of_pairsFrom. done.
Qed.

Lemma pairsFrom_filter dm (n : nat) (ns : list node) : ∀ i,
  pairsFrom dm (λ q, q <? n) i (take (n - i) ns)
  = filter (λ e, e.1 < n ∧ e.2 < n) (pairsFrom dm (λ _, true) i ns).
Proof.
  induction ns as [|nd ns IH]; intros i; [by rewrite take_nil|].
  destruct (n - i) as [|m] eqn:Hm.
  - rewrite filter_none_nil; [done|].
    eapply Forall_impl; [apply pairsFrom_from|]. simpl. intros e He. lia.
  - replace m with (n - S i) by lia. simpl. rewrite IH. unfold parentIdxOf.
    destruct (dm !! parentKeyOf (p nd)) as [q|]; [|done].
    destruct (q <? n) eqn:Hq.
    + apply Nat.ltb_lt in Hq. rewrite filter_cons_True; [done|]. simpl. lia.
    + apply Nat.ltb_ge in Hq. rewrite filter_cons_False; [done|]. simpl. lia.
Qed.

(** ** Trimming *)

Lemma trim_nodes (st : state) : topNodes (trim st) = take MAX_NODES (nodes st).
Proof.
  unfold trim. destruct (MAX_NODES <? length (nodes st)) eqn:H; simpl; [done|].
  apply Nat.ltb_ge in H. by rewrite take_ge.
Qed.

Lemma trim_edges (st : state) :
  topEdges (trim st)
  = edgesFrom (dirMap st) (finalRange st) 1 (drop 1 (topNodes (trim st))).
Proof.
  unfold trim, finalRange, rebuiltEdges, rawEdges.
  destruct (MAX_NODES <? length (nodes st)) eqn:H; simpl; [|done].
  apply Nat.ltb_lt in H. rewrite length_take, Nat.min_l by lia. done.
Qed.

Lemma trim_pairs (st : state) :
  pairsOf (topEdges (trim st))
  = pairsFrom (dirMap st) (finalRange st) 1 (drop 1 (topNodes (trim st))).
Proof. by rewrite trim_edges, pairsOf_edgesFrom. Qed.

Lemma trim_length (st : state) : length (topNodes (trim st)) ≤ MAX_NODES.
Proof. rewrite trim_nodes, length_take. lia. Qed.

Lemma trim_edges_flat (st : state) :
  topEdges (trim st) = flatten (pairsOf (topEdges (trim st))).
Proof. by rewrite trim_pairs, trim_edges, edgesFrom_flatten. Qed.

Lemma finalRange_spec (st : state) (q : nat) :
  finalRange st q = true ↔ (MAX_NODES < length (nodes st) → q < MAX_NODES).
Proof.
  unfold finalRange. destruct (MAX_NODES <? length (nodes st)) eqn:H.
  - apply Nat.ltb_lt in H. rewrite Nat.ltb_lt. split; [done|auto].
  - apply Nat.ltb_ge in H. split; [lia|done].
Qed.

(** The pairs of the final edge array, for any state that the passes leave. *)
Lemma trim_pairs_elem (st : state) (c q : nat) :
  (c, q) ∈ pairsOf (topEdges (trim st))
  ↔ 1 ≤ c ∧ ∃ nd, topNodes (trim st) !! c = Some nd
                  ∧ dirMap st !! parentKeyOf (p nd) = Some q
                  ∧ finalRange st q = true.
Proof.
  rewrite trim_pairs, elem_of_pairsFrom. unfold parentIdxOf.
  split.
  - intros (nd & Hc & Hnd & Hq). split; [done|]. exists nd.
    rewrite lookup_drop in Hnd. replace (1 + (c - 1)) with c in Hnd by lia.
    destruct (dirMap st !! parentKeyOf (p nd)) as [j|]; [|done].
    destruct (finalRange st j) eqn:Hj; [|done]. by injection Hq as <-.
  - intros (Hc & nd & Hnd & Hq & Hr). exists nd. split; [done|].
    rewrite lookup_drop. replace (1 + (c - 1)) with c by lia.
    split; [done|]. by rewrite Hq, Hr.
Qed.

(** ** The raw node list and directory map *)

Section Raw.
Variable localeCompare : string → string → Z.
Variable tree : list entry.

Local Abbreviation D := (dirsOf localeCompare tree).
Local Abbreviation F := (filesOf localeCompare tree).
Local Abbreviation dm := (dirMapOf localeCompare tree).
Local Abbreviation raw := (rawState localeCompare tree).

Lemma raw_length : length (nodes raw) = S (length D + length F).
Proof.
  simpl. by rewrite length_app, length_dirNodes, length_fileNodes.
Qed.

Lemma raw_lookup_dir (i : nat) (d : string) :
  D !! i = Some d →
  nodes raw !! S i
  = Some (Node "d" d (S i) (pidOf (dirsMap 1 (take i D) {[ "" := 0 ]}) d)).
Proof.
  intros Hd. simpl. rewrite lookup_app_l
    by (rewrite length_dirNodes; by eapply lookup_lt_Some).
  by rewrite dirNodes_lookup, Hd.
Qed.

Lemma raw_lookup_file (i : nat) (f : string) :
  F !! i = Some f →
  nodes raw !! S (length D + i)
  = Some (Node "f" f (S (length D + i)) (pidOf dm f)).
Proof.
  intros Hf. simpl. rewrite lookup_app_r by (rewrite length_dirNodes; lia).
  rewrite length_dirNodes, Nat.add_comm, Nat.add_sub.
  rewrite fileNodes_lookup, Hf. simpl. do 3 f_equal. lia.
Qed.

Lemma raw_lookup_cases (c : nat) (nd : node) :
  nodes raw !! c = Some nd →
  (c = 0 ∧ nd = rootNode)
  ∨ (∃ i, c = S i ∧ D !! i = Some (p nd) ∧ i < length D)
  ∨ (∃ i, c = S (length D + i) ∧ F !! i = Some (p nd)
          ∧ pid nd = pidOf dm (p nd)).
Proof.
  intros H. destruct c as [|c]; [left; simpl in H; by injection H as <-|].
  right. destruct (decide (c < length D)) as [Hlt|Hge].
  - left. exists c. destruct (lookup_lt_is_Some_2 D c Hlt) as [d Hd].
    rewrite (raw_lookup_dir _ _ Hd) in H. injection H as <-. done.
  - right. exists (c - length D).
    assert (c = length D + (c - length D)) as Hc by lia.
    assert (c - length D < length F) as Hlt.
    { apply lookup_lt_Some in H. rewrite raw_length in H. lia. }
    destruct (lookup_lt_is_Some_2 F _ Hlt) as [f Hf].
    rewrite Hc, (raw_lookup_file _ _ Hf) in H. injection H as <-.
    repeat split; [lia|done].
Qed.

Lemma raw_ids : map id (nodes raw) = seq 0 (length (nodes raw)).
Proof.
  rewrite raw_length. simpl. rewrite map_app, map_id_dirNodes, map_id_fileNodes.
  by rewrite seq_app.
Qed.

Lemma raw_id (c : nat) (nd : node) : nodes raw !! c = Some nd → id nd = c.
Proof.
  intros H. assert (map id (nodes raw) !! c = Some (id nd)) as Hm
    by (by rewrite list_lookup_fmap, H).
  rewrite raw_ids in Hm. apply lookup_seq in Hm as [-> _]. done.
Qed.

Lemma raw_paths : map p (nodes raw) = "/" :: D ++ F.
Proof. simpl. by rewrite map_app, map_p_dirNodes, map_p_fileNodes. Qed.

Lemma raw_kinds :
  map t (nodes raw) = "r" :: replicate (length D) "d" ++ replicate (length F) "f".
Proof. simpl. by rewrite map_app, map_t_dirNodes, map_t_fileNodes. Qed.

Lemma dirMapOf_lookup (k : string) (j : nat) :
  dm !! k = Some j →
  (j = 0 ∧ k = "" ∧ k ∉ D)
  ∨ (∃ i, j = S i ∧ D !! i = Some k ∧ ∀ i', D !! i' = Some k → i' ≤ i).
Proof.
  unfold dirMapOf. rewrite dirsMap_lookup.
  destruct (lastIndex k D) as [i|] eqn:Hl.
  - intros [= <-]. right. exists i. split; [done|]. by apply lastIndex_Some.
  - intros [<- <-]%lookup_singleton_Some. left.
    split; [done|]. split; [done|]. by apply lastIndex_None.
Qed.

Lemma dirMapOf_bound (k : string) (j : nat) : dm !! k = Some j → j ≤ length D.
Proof.
  intros [(-> & _)|(i & -> & Hi & _)]%dirMapOf_lookup; [lia|].
  apply lookup_lt_Some in Hi. lia.
Qed.

Lemma dirMapOf_top : is_Some (dm !! "").
Proof.
  unfold dirMapOf. rewrite dirsMap_lookup. destruct (lastIndex "" D); [by eexists|].
  rewrite lookup_singleton_eq. by eexists.
Qed.

Lemma dirMapOf_dir (k : string) : k ∈ D → is_Some (dm !! k).
Proof.
  intros [i Hi]%lastIndex_elem_of. unfold dirMapOf.
  rewrite dirsMap_lookup, Hi. by eexists.
Qed.

Lemma elem_of_dirs (d : string) :
  d ∈ D ↔ ∃ e, e ∈ tree ∧ isTree e = true ∧ path e = d.
Proof.
  unfold dirsOf, pathsOf. rewrite sort_perm.
  rewrite list_elem_of_fmap. setoid_rewrite list_elem_of_filter.
  split; intros (e & H1 & H2); exists e; [destruct H2|destruct H2 as [? <-]]; done.
Qed.

Lemma elem_of_files (f : string) :
  f ∈ F ↔ ∃ e, e ∈ tree ∧ isBlob e = true ∧ path e = f.
Proof.
  unfold filesOf, pathsOf. rewrite sort_perm.
  rewrite list_elem_of_fmap. setoid_rewrite list_elem_of_filter.
  split; intros (e & H1 & H2); exists e; [destruct H2|destruct H2 as [? <-]]; done.
Qed.

Lemma dirs_perm : D ≡ₚ pathsOf isTree tree.
Proof. unfold dirsOf, pathsOf. by rewrite sort_perm. Qed.

Lemma files_perm : F ≡ₚ pathsOf isBlob tree.
Proof. unfold filesOf, pathsOf. by rewrite sort_perm. Qed.

Lemma raw_length_listing :
  length (nodes raw)
  = S (length (pathsOf isTree tree) + length (pathsOf isBlob tree)).
Proof. by rewrite raw_length, dirs_perm, files_perm. Qed.

(** *** Under the assumptions on the collation *)

Hypothesis antisym : antisymmetricCmp localeCompare.
Hypothesis trans : transitiveCmp localeCompare.

(** The directories are in collation order on every listing, the files on a
    listing of directories and files. *)
Lemma dirs_sorted : sortedBy localeCompare D.
Proof. by apply sort_dirs_sorted. Qed.

Lemma files_sorted : treesAndBlobs tree = true → sortedBy localeCompare F.
Proof. intros known. apply pathsOf_sorted; [by right|by apply sorted_listing]. Qed.

Hypothesis dirFirst : directoryFirst localeCompare.
Hypothesis relative : dirPathsRelative tree = true.

Lemma dirs_relative (d : string) : d ∈ D → relativePath d = true.
Proof.
  intros (e & He & Ht & <-)%elem_of_dirs.
  unfold dirPathsRelative in relative. rewrite forallb_forall in relative.
  apply list_elem_of_In, relative in He. by rewrite Ht in He.
Qed.

(** A directory comes after the directory it is in. *)
Lemma parent_dir_before (i i' : nat) (d : string) :
  D !! i = Some d → D !! i' = Some (parentKeyOf d) → i' < i.
Proof.
  intros Hd Hk.
  assert (relativePath d = true) as Hrel
    by (apply dirs_relative; by eapply list_elem_of_lookup_2).
  destruct (parentKeyOf_split d Hrel) as [Hroot|(rest & Hrest & Hsplit)].
  - rewrite Hroot in Hk.
    assert (relativePath "" = true) as Habs
      by (apply dirs_relative; by eapply list_elem_of_lookup_2).
    done.
  - eapply (sorted_before localeCompare D antisym dirs_sorted); [exact Hk|exact Hd|].
    rewrite Hsplit at 2. by apply dirFirst.
Qed.

(** The directory map sends the parent key of a node to an earlier node. *)
Lemma parent_before (c q : nat) (nd : node) :
  1 ≤ c → nodes raw !! c = Some nd → dm !! parentKeyOf (p nd) = Some q → q < c.
Proof.
  intros Hc Hnd Hq.
  destruct (raw_lookup_cases _ _ Hnd) as [[-> _]|[(i & -> & Hi & _)|(i & -> & _)]].
  - lia.
  - apply dirMapOf_lookup in Hq as [(-> & _)|(i' & -> & Hi' & _)]; [lia|].
    apply -> Nat.succ_lt_mono. by eapply parent_dir_before.
  - apply dirMapOf_bound in Hq. lia.
Qed.

(** Every node has the [pid] that the final directory map gives it. *)
Lemma raw_pid (c : nat) (nd : node) :
  nodes raw !! c = Some nd → pid nd = pidOf dm (p nd).
Proof.
  intros Hnd.
  destruct (raw_lookup_cases _ _ Hnd) as [[-> ->]|[(i & -> & Hi & _)|(i & -> & _ & Hp)]];
    [| |done].
  - unfold pidOf. simpl.
    destruct (dm !! parentKeyOf "/") as [j|] eqn:Hj; [|done].
    apply dirMapOf_lookup in Hj as [(_ & Habs & _)|(i & _ & Hi & _)]; [done|].
    assert (relativePath (parentKeyOf "/") = true) as Habs
      by (apply dirs_relative; by eapply list_elem_of_lookup_2).
    done.
  - rewrite (raw_lookup_dir _ _ Hi) in Hnd. injection Hnd as <-. simpl.
    unfold pidOf, dirMapOf. rewrite dirsMap_take_lookup; [done|].
    intros j Hj. by eapply parent_dir_before.
Qed.

End Raw.

(** ** The code-unit collation satisfies the assumptions *)

Lemma compare_le_trans (a : string) : ∀ b c,
  String.compare a b ≠ Gt → String.compare b c ≠ Gt → String.compare a c ≠ Gt.
Proof.
  induction a as [|x a IH]; intros [|y b] [|z c]; simpl; try done.
  unfold Ascii.compare.
  destruct (N.compare_spec (N_of_ascii x) (N_of_ascii y)) as [Hxy|Hxy|Hxy];
    destruct (N.compare_spec (N_of_ascii y) (N_of_ascii z)) as [Hyz|Hyz|Hyz];
    destruct (N.compare_spec (N_of_ascii x) (N_of_ascii z)) as [Hxz|Hxz|Hxz];
    try done; try lia.
  apply IH.
Qed.

Lemma codeUnit_antisymmetric : antisymmetricCmp codeUnitCompare.
Proof.
  intros a b. unfold codeUnitCompare. rewrite (String.compare_antisym a b).
  destruct (String.compare b a); simpl; lia.
Qed.

Lemma codeUnit_transitive : transitiveCmp codeUnitCompare.
Proof.
  intros a b c. unfold codeUnitCompare.
  pose proof (compare_le_trans a b c) as H.
  destruct (String.compare a b), (String.compare b c), (String.compare a c);
    try lia; intros _ _; exfalso; by apply H.
Qed.

Lemma compare_extension (d : string) (x : ascii) (rest : string) :
  String.compare d (d +:+ String x rest) = Lt.
Proof.
  induction d as [|c d IH]; [done|].
  simpl. unfold Ascii.compare. by rewrite N.compare_refl.
Qed.

Lemma codeUnit_directoryFirst : directoryFirst codeUnitCompare.
Proof.
  intros d rest _. unfold codeUnitCompare.
  change (d +:+ "/" +:+ rest) with (d +:+ String "/"%char rest).
  by rewrite compare_extension.
Qed.

(** ** Rooted trees *)

Lemma parentOf_elem_of (ps : list (nat * nat)) (i q : nat) :
  parentOf ps i = Some q → (i, q) ∈ ps.
Proof.
  unfold parentOf. destruct (List.find _ ps) as [[c q']|] eqn:Hf; [|done].
  intros [= <-]. apply find_some in Hf as [Hin Hc].
  apply Nat.eqb_eq in Hc. simpl in Hc. subst. by apply list_elem_of_In.
Qed.

Lemma parentOf_is_Some (ps : list (nat * nat)) (i : nat) :
  i ∈ map fst ps → is_Some (parentOf ps i).
Proof.
  intros Hi. unfold parentOf. destruct (List.find _ ps) as [e|] eqn:Hf; [by eexists|].
  apply list_elem_of_fmap in Hi as ([c q] & -> & Hin).
  apply list_elem_of_In in Hin.
  pose proof (find_none _ _ Hf _ Hin) as Hne. simpl in Hne.
  by rewrite Nat.eqb_refl in Hne.
Qed.

(** Edge pairs with one pair per non-root node and every parent before its
    child form a rooted tree. *)
Lemma rootedTree_ordered (n : nat) (ps : list (nat * nat)) :
  map fst ps = seq 1 (n - 1) → Forall (λ e, e.2 < e.1) ps → rootedTree n ps.
Proof.
  intros Hfst Hord. rewrite Forall_forall in Hord.
  assert (∀ c q, (c, q) ∈ ps → c < n) as Hchild.
  { intros c q Hin. assert (c ∈ map fst ps) as Hc
      by (apply list_elem_of_fmap; by exists (c, q)).
    rewrite Hfst in Hc. apply elem_of_seq in Hc. lia. }
  split; [done|]. split.
  - apply Forall_forall. intros [c q] Hin. simpl.
    specialize (Hord _ Hin). specialize (Hchild _ _ Hin). simpl in Hord. lia.
  - intros i. induction i as [i IH] using lt_wf_ind. intros Hi.
    destruct i as [|i]; [by exists 0|].
    destruct (parentOf_is_Some ps (S i)) as [q Hq].
    { rewrite Hfst. apply elem_of_seq. lia. }
    pose proof (parentOf_elem_of _ _ _ Hq) as Hin.
    specialize (Hord _ Hin). simpl in Hord.
    destruct (IH q Hord) as [k Hk]; [lia|].
    exists (S k). simpl. by rewrite Hq.
Qed.

Lemma pairsFrom_all_inv dm inRange (ns : list node) : ∀ i,
  map fst (pairsFrom dm inRange i ns) = seq i (length ns) →
  Forall (λ nd, is_Some (parentIdxOf dm inRange nd)) ns.
Proof.
  induction ns as [|nd ns IH]; intros i H; [done|].
  simpl in H. destruct (parentIdxOf dm inRange nd) as [q|] eqn:Hq.
  - simpl in H. injection H as H. constructor; [by eexists|by eapply IH].
  - exfalso. pose proof (pairsFrom_children dm inRange ns (S i)) as Hsub.
    apply sublist_length in Hsub. rewrite H in Hsub.
    simpl in Hsub. rewrite !length_seq in Hsub. lia.
Qed.

(** ** The final arrays *)

Section Final.
Variable localeCompare : string → string → Z.
Variable tree : list entry.

Local Abbreviation dm := (dirMapOf localeCompare tree).
Local Abbreviation raw := (rawState localeCompare tree).
Local Abbreviation out := (trim (rawState localeCompare tree)).

Lemma buildTopology_closed : buildTopology localeCompare tree = Some out.
Proof. unfold buildTopology. by rewrite buildRaw_closed. Qed.

Lemma out_lookup (c : nat) (nd : node) :
  topNodes out !! c = Some nd ↔ nodes raw !! c = Some nd ∧ c < MAX_NODES.
Proof. rewrite trim_nodes. apply lookup_take_Some. Qed.

Lemma out_length : length (topNodes out) = MAX_NODES `min` length (nodes raw).
Proof. rewrite trim_nodes. apply length_take. Qed.

Lemma finalRange_true (q : nat) :
  finalRange raw q = true ↔ (MAX_NODES < length (nodes raw) → q < MAX_NODES).
Proof.
  unfold finalRange. destruct (MAX_NODES <? length (nodes raw)) eqn:H.
  - apply Nat.ltb_lt in H. rewrite Nat.ltb_lt. naive_solver.
  - apply Nat.ltb_ge in H. split; [lia|done].
Qed.

Lemma parentIdxOf_Some (nd : node) (q : nat) :
  parentIdxOf dm (finalRange raw) nd = Some q
  ↔ dm !! parentKeyOf (p nd) = Some q ∧ finalRange raw q = true.
Proof.
  unfold parentIdxOf. destruct (dm !! parentKeyOf (p nd)) as [j|].
  - destruct (finalRange raw j) eqn:Hj; split.
    + by intros [= <-].
    + by intros [[= <-] _].
    + done.
    + intros [[= <-] Hq]. congruence.
  - split; [done|by intros [? _]].
Qed.

Lemma out_pairs (c q : nat) :
  (c, q) ∈ pairsOf (topEdges out)
  ↔ 1 ≤ c ∧ ∃ nd, topNodes out !! c = Some nd
                  ∧ dm !! parentKeyOf (p nd) = Some q
                  ∧ finalRange raw q = true.
Proof.
  rewrite trim_pairs, elem_of_pairsFrom.
  split.
  - intros (nd & Hc & Hnd & Hq). split; [done|]. exists nd.
    rewrite lookup_drop in Hnd. replace (1 + (c - 1)) with c in Hnd by lia.
    by apply parentIdxOf_Some in Hq as [? ?].
  - intros (Hc & nd & Hnd & Hq & Hr). exists nd. split; [done|].
    rewrite lookup_drop. replace (1 + (c - 1)) with c by lia.
    split; [done|]. by apply parentIdxOf_Some.
Qed.

Lemma out_edges_flat : topEdges out = flatten (pairsOf (topEdges out)).
Proof. by rewrite trim_pairs, trim_edges, edgesFrom_flatten. Qed.

(** A parent index that passed the test of the final loop is the index of
    a kept node. *)
Lemma out_parent_kept (k : string) (q : nat) :
  dm !! k = Some q → finalRange raw q = true → q < length (topNodes out).
Proof.
  intros Hq Hr. rewrite out_length. apply dirMapOf_bound in Hq.
  rewrite finalRange_true in Hr. rewrite raw_length in *. lia.
Qed.

End Final.

(** ** The properties *)

(** C3.  The node sequence is dense: the ids are 0, 1, ..., N-1 in this
    order, so the id of every node is its position in the array and a node
    is serialised with its position as [id]; the node at index 0 is the
    root.  This holds for every listing and every collation, and the
    generator never throws. *)
Theorem nodes_dense (localeCompare : string → string → Z) (tree : list entry) :
  ∃ out, buildTopology localeCompare tree = Some out
    ∧ map id (topNodes out) = seq 0 (length (topNodes out))
    ∧ topNodes out !! 0 = Some rootNode
    ∧ ∀ i nd, topNodes out !! i = Some nd →
        id nd = i
        ∧ stringifyNode nd = stringifyNode (Node (t nd) (p nd) i (pid nd)).
Proof.
  eexists. split; [apply buildTopology_closed|].
  split; [|split].
  - rewrite trim_nodes, length_take, <- firstn_map, raw_ids. apply take_seq.
  - apply out_lookup. split; [done|]. unfold MAX_NODES. lia.
  - intros i nd [Hnd _]%out_lookup. apply raw_id in Hnd as <-.
    split; [done|]. by destruct nd.
Qed.

(** C6.  The edge array is a sequence of (child, parent) pairs whose child
    and parent are both indices of the final node array: no pair refers to a
    node that trimming discarded. *)
Theorem edges_in_range (localeCompare : string → string → Z) (tree : list entry) :
  ∃ out, buildTopology localeCompare tree = Some out
    ∧ topEdges out = flatten (pairsOf (topEdges out))
    ∧ Forall (λ e, e.1 < length (topNodes out) ∧ e.2 < length (topNodes out))
             (pairsOf (topEdges out)).
Proof.
  eexists. split; [apply buildTopology_closed|].
  split; [apply out_edges_flat|].
  apply Forall_forall. intros [c q] (Hc & nd & Hnd & Hq & Hr)%out_pairs. simpl.
  split; [by eapply lookup_lt_Some|by eapply out_parent_kept].
Qed.




Lemma drop_take_1 {A} (n : nat) (l : list A) :
  drop 1 (take n l) = take (n - 1) (drop 1 l).
Proof.
  destruct n as [|n], l as [|x l]; simpl; try done.
  - by rewrite take_nil.
  - by rewrite Nat.sub_0_r.
Qed.

Lemma pairsFrom_take dm g1 g2 (ns : list node) : ∀ m i,
  Forall (λ nd, is_Some (parentIdxOf dm g1 nd)) ns →
  Forall (λ nd, parentIdxOf dm g2 nd = parentIdxOf dm g1 nd) (take m ns) →
  pairsFrom dm g2 i (take m ns) = take m (pairsFrom dm g1 i ns).
Proof.
  induction ns as [|nd ns IH]; intros m i Hall Hagree.
  - by destruct m.
  - destruct m as [|m]; [done|]. simpl in *.
    apply Forall_cons in Hall as [[q Hq] Hall].
    apply Forall_cons in Hagree as [Hnd Hagree].
    rewrite Hnd, Hq. simpl. by rewrite IH.
Qed.

Lemma ancestor_le (ps : list (nat * nat)) :
  Forall (λ e, e.2 < e.1) ps →
  ∀ k c a, ancestor ps k c = Some a → a ≤ c.
Proof.
  intros Hord. rewrite Forall_forall in Hord.
  induction k as [|k IH]; intros c a H; simpl in H.
  - injection H as <-. lia.
  - destruct (parentOf ps c) as [q|] eqn:Hq; [|done]. simpl in H.
    apply parentOf_elem_of, Hord in Hq. simpl in Hq.
    apply IH in H. lia.
Qed.

Section Trees.
Variable localeCompare : string → string → Z.
Variable tree : list entry.

Local Abbreviation dm := (dirMapOf localeCompare tree).
Local Abbreviation raw := (rawState localeCompare tree).
Local Abbreviation out := (trim (rawState localeCompare tree)).

(** In a listing with every directory listed, every node but the root
    finds its parent key in the directory map. *)
Lemma listed_parented (c : nat) (nd : node) :
  parentsListed tree = true →
  1 ≤ c → nodes raw !! c = Some nd → is_Some (dm !! parentKeyOf (p nd)).
Proof.
  intros Hlisted Hc Hnd. unfold parentsListed in Hlisted.
  rewrite forallb_forall in Hlisted.
  assert (∃ e, e ∈ tree ∧ (isTree e || isBlob e) = true ∧ path e = p nd)
    as (e & He & Hty & Hpath).
  { destruct (raw_lookup_cases _ _ _ _ Hnd) as [[-> _]|[(i & _ & Hi & _)|(i & _ & Hi & _)]].
    - lia.
    - apply list_elem_of_lookup_2, elem_of_dirs in Hi as (e & ? & Ht & ?).
      exists e. by rewrite Ht.
    - apply list_elem_of_lookup_2, elem_of_files in Hi as (e & ? & Hb & ?).
      exists e. rewrite Hb. by rewrite orb_true_r. }
  apply list_elem_of_In, Hlisted in He. rewrite Hty, Hpath in He.
  destruct (String.eqb (parentKeyOf (p nd)) "") eqn:Htop.
  - apply String.eqb_eq in Htop. rewrite Htop. apply dirMapOf_top.
  - apply existsb_exists in He as (d & Hd & Hdt).
    apply andb_true_iff in Hdt as [Hdt Hdp]. apply String.eqb_eq in Hdp.
    apply dirMapOf_dir, elem_of_dirs. exists d.
    split; [by apply list_elem_of_In|done].
Qed.

Hypothesis antisym : antisymmetricCmp localeCompare.
Hypothesis trans : transitiveCmp localeCompare.
Hypothesis dirFirst : directoryFirst localeCompare.
Hypothesis relative : dirPathsRelative tree = true.

Lemma raw_pairs_ordered : Forall (λ e, e.2 < e.1) (pairsOf (rawEdges raw)).
Proof.
  unfold rawEdges. rewrite pairsOf_edgesFrom.
  apply Forall_forall. intros [c q] (nd & Hc & Hnd & Hq)%elem_of_pairsFrom.
  rewrite lookup_drop in Hnd. replace (1 + (c - 1)) with c in Hnd by lia.
  unfold parentIdxOf in Hq.
  destruct (dirMap raw !! parentKeyOf (p nd)) as [j|] eqn:Hj; [|done].
  injection Hq as <-. simpl. by eapply parent_before.
Qed.

Lemma out_pairs_ordered : Forall (λ e, e.2 < e.1) (pairsOf (topEdges out)).
Proof.
  apply Forall_forall. intros [c q] (Hc & nd & Hnd & Hq & Hr)%out_pairs. simpl.
  apply out_lookup in Hnd as [Hnd _]. by eapply parent_before.
Qed.

(** When every node but the root finds its parent key in the directory
    map, the final arrays form a rooted tree. *)
Lemma out_rootedTree :
  (∀ c nd, 1 ≤ c → nodes raw !! c = Some nd → is_Some (dm !! parentKeyOf (p nd))) →
  rootedTree (length (topNodes out)) (pairsOf (topEdges out)).
Proof.
  intros Hpar. apply rootedTree_ordered; [|apply out_pairs_ordered].
  rewrite trim_pairs. rewrite pairsFrom_all; [by rewrite length_drop|].
  apply Forall_forall. intros nd [c Hnd]%list_elem_of_lookup_1.
  rewrite lookup_drop in Hnd. pose proof Hnd as Hkept.
  apply out_lookup in Hnd as [Hnd Hcap].
  assert (1 ≤ 1 + c) as Hc by lia.
  destruct (Hpar _ _ Hc Hnd) as [q Hq].
  exists q. apply parentIdxOf_Some. split; [done|].
  apply finalRange_true. intros _.
  pose proof (parent_before _ _ antisym trans dirFirst relative _ _ _
                Hc Hnd Hq). lia.
Qed.

Lemma raw_rootedTree :
  (∀ c nd, 1 ≤ c → nodes raw !! c = Some nd → is_Some (dm !! parentKeyOf (p nd))) →
  rootedTree (length (nodes raw)) (pairsOf (rawEdges raw)).
Proof.
  intros Hpar. apply rootedTree_ordered; [|apply raw_pairs_ordered].
  unfold rawEdges. rewrite pairsOf_edgesFrom.
  rewrite pairsFrom_all; [by rewrite length_drop|].
  apply Forall_forall. intros nd [c Hnd]%list_elem_of_lookup_1.
  rewrite lookup_drop in Hnd.
  assert (1 ≤ 1 + c) as Hc by lia.
  destruct (Hpar _ _ Hc Hnd) as [q Hq].
  exists q. unfold parentIdxOf. simpl. by rewrite Hq.
Qed.

End Trees.

(** C2, as the code has it.  The edge array is a sequence of (child, parent)
    pairs with at most one pair per non-root node, in increasing order of
    the child: the pair of a node and [q] is there exactly when the node is
    not the root and the directory map has its parent key with the index [q]
    of a node of the final array.  So the number of pairs is the number of
    nodes minus 1 minus the number of non-root nodes left without one, and
    those are the nodes whose parent key is not in the directory map or is
    there with an index that trimming cut off. *)
Theorem edge_count (localeCompare : string → string → Z) (tree : list entry) :
  ∃ st out,
    buildRaw localeCompare tree = Some st
    ∧ buildTopology localeCompare tree = Some out
    ∧ topEdges out = flatten (pairsOf (topEdges out))
    ∧ map fst (pairsOf (topEdges out)) `sublist_of` seq 1 (length (topNodes out) - 1)
    ∧ (∀ i q, (i, q) ∈ pairsOf (topEdges out)
              ↔ 1 ≤ i ∧ q < length (topNodes out)
                ∧ ∃ nd, topNodes out !! i = Some nd
                        ∧ dirMap st !! parentKeyOf (p nd) = Some q)
    ∧ length (pairsOf (topEdges out))
      + length (unparented (dirMap st) (finalRange st) (topNodes out))
      = length (topNodes out) - 1
    ∧ ∀ nd, nd ∈ unparented (dirMap st) (finalRange st) (topNodes out) →
        dirMap st !! parentKeyOf (p nd) = None
        ∨ ∃ q, dirMap st !! parentKeyOf (p nd) = Some q
               ∧ length (topNodes out) ≤ q.
Proof.
  eexists _, _. split; [apply buildRaw_closed|].
  split; [apply buildTopology_closed|].
  split; [apply out_edges_flat|].
  split; [|split; [|split]].
  - rewrite trim_pairs, <- (length_drop _ 1). apply pairsFrom_children.
  - intros i q. rewrite out_pairs. split.
    + intros (Hi & nd & Hnd & Hq & Hr). split; [done|].
      split; [by eapply out_parent_kept|]. by exists nd.
    + intros (Hi & Hq & nd & Hnd & Hdm). split; [done|]. exists nd.
      split; [done|]. split; [done|].
      apply finalRange_true. rewrite out_length in Hq. lia.
  - rewrite trim_pairs. unfold unparented. rewrite pairsFrom_count. apply length_drop.
  - unfold unparented.
    intros nd [Hnone _]%list_elem_of_filter. unfold parentIdxOf in Hnone.
    destruct (dirMap _ !! parentKeyOf (p nd)) as [q|] eqn:Hq; [|by left].
    right. exists q. split; [done|].
    destruct (finalRange _ q) eqn:Hr; [done|].
    rewrite out_length. unfold finalRange in Hr.
    destruct (MAX_NODES <? length (nodes _)) eqn:Hlt; [|done].
    apply Nat.ltb_lt in Hlt. apply Nat.ltb_ge in Hr. lia.
Qed.

(** C2, as stated, fails on a listing with a file whose directory is not
    listed: four nodes and two pairs, and no parent was cut off by trimming,
    since no index of the directory map reaches the number of nodes. *)
Lemma edge_count_counterexample :
  ∃ st out,
    buildRaw codeUnitCompare strayTree = Some st
    ∧ buildTopology codeUnitCompare strayTree = Some out
    ∧ length (topNodes out) = 4
    ∧ pairsOf (topEdges out) = [(1, 0); (3, 1)]
    ∧ ¬ (length (pairsOf (topEdges out)) = length (topNodes out) - 1
         ∨ ∃ nd q, nd ∈ drop 1 (topNodes out)
                   ∧ dirMap st !! parentKeyOf (p nd) = Some q
                   ∧ length (topNodes out) ≤ q).
Proof.
  eexists _, _. split; [apply buildRaw_closed|].
  split; [apply buildTopology_closed|].
  assert (length (topNodes (trim (rawState codeUnitCompare strayTree))) = 4)
    as Hn by (vm_compute; reflexivity).
  assert (pairsOf (topEdges (trim (rawState codeUnitCompare strayTree)))
          = [(1, 0); (3, 1)]) as Hps by (vm_compute; reflexivity).
  split; [done|]. split; [done|].
  rewrite Hps, Hn. intros [Hcount|(nd & q & _ & Hq & Hle)]; [done|].
  apply dirMapOf_bound in Hq.
  assert (length (dirsOf codeUnitCompare strayTree) = 1) as Hd
    by (vm_compute; reflexivity).
  lia.
Qed.





Lemma nestedLargeTree_long :
  MAX_NODES < length (nodes (rawState codeUnitCompare nestedLargeTree)).
Proof.
  rewrite (raw_length_listing codeUnitCompare nestedLargeTree).
  apply Nat.ltb_lt. vm_compute. reflexivity.
Qed.



Lemma largeTree_long :
  MAX_NODES < length (nodes (rawState codeUnitCompare largeTree)).
Proof.
  rewrite (raw_length_listing codeUnitCompare largeTree).
  apply Nat.ltb_lt. vm_compute. reflexivity.
Qed.

Lemma pathsOf_perm (test : entry → bool) (l l' : list entry) :
  l ≡ₚ l' → pathsOf test l ≡ₚ pathsOf test l'.
Proof. intros H. unfold pathsOf. by rewrite H. Qed.



Lemma mixedTree_inconsistent :
  ¬ Js.consistentOn (compareEntries codeUnitCompare) mixedTree.
Proof.
  apply (compareEntries_mixed codeUnitCompare "b" "m"); unfold mixedTree;
    rewrite !elem_of_cons; auto.
Qed.

Lemma mixedInserted_sortResult :
  Js.sortResult (compareEntries codeUnitCompare) mixedTree mixedInserted.
Proof.
  split; [|by intros ?%mixedTree_inconsistent].
  apply (Permutation_cons_append [file "b"; Entry "m" "commit"; file "a"] (dir "d")).
Qed.





(** ** The script *)

Lemma requestFails_ghFetch (w : world) (urlPath : string) :
  requestFails w urlPath → ghFetch w urlPath = None.
Proof.
  unfold requestFails, ghFetch.
  destruct (github w urlPath (authorization w)) as [|statusCode data]; [done|].
  intros H. apply Nat.eqb_neq in H. by rewrite H.
Qed.

Lemma main_fetched (localeCompare : string → string → Z) (w : world)
    (owner repo : string) (branch : option string) (tree : list entry) :
  fetchTree w owner repo branch = Some tree →
  main localeCompare w owner repo branch
  = writeFiles w (trim (rawState localeCompare tree)).
Proof.
  intros H. unfold main. rewrite H. simpl. by rewrite buildTopology_closed.
Qed.

Lemma main_not_fetched (localeCompare : string → string → Z) (w : world)
    (owner repo : string) (branch : option string) :
  fetchTree w owner repo branch = None →
  main localeCompare w owner repo branch = Outcome 1 [].
Proof. intros H. unfold main. by rewrite H. Qed.

Lemma written_writeFiles (w : world) (topo : topology) (f c : string) :
  (f, c) ∈ written (writeFiles w topo) →
  (f = nodesFile ∧ c = nodesContent (topNodes topo))
  ∨ (f = edgesFile ∧ c = edgesContent (topEdges topo)).
Proof.
  unfold writeFiles.
  destruct (writable w nodesFile), (writable w edgesFile); simpl;
    rewrite ?elem_of_cons, ?elem_of_nil;
    intros H; repeat destruct H as [H|H]; try done;
    injection H as -> ->; by eauto.
Qed.

(** A collation that differs from the code-unit order on a path that the
    sample listing does not have. *)
Lemma otherCollation_agrees (a b : entry) :
  a ∈ sampleTree → b ∈ sampleTree →
  codeUnitCompare (path a) (path b)
  = (if String.eqb (path a) "zzz" then 7%Z else codeUnitCompare (path a) (path b)).
Proof.
  intros Ha _.
  assert (Forall (λ e, String.eqb (path e) "zzz" = false) sampleTree) as Hall
    by (repeat constructor).
  rewrite Forall_forall in Hall. by rewrite (Hall a Ha).
Qed.




(** C8.  A failed run writes nothing: when the repository argument is
    missing or has no owner or no repository part, and when a request of the
    run to the GitHub API fails (network error or status other than 200),
    the script exits with status 1 and has written no file; and a file that
    the script writes is [nodes.js] or [edges.js] with the serialised nodes
    or edges of the topology built from the listing that the run fetched. *)
Theorem failure_writes_nothing (localeCompare : string → string → Z) (w : world) :
  (parseArgs w = None → script localeCompare w = Outcome 1 [])
  ∧ (parseArgs w = None
     ↔ truthy (argv w !! 0) = false
       ∨ ∃ repoArg, argv w !! 0 = Some repoArg
           ∧ (truthy (Js.split "/"%char repoArg !! 0) = false
              ∨ truthy (Js.split "/"%char repoArg !! 1) = false))
  ∧ (∀ owner repo branch,
       parseArgs w = Some (owner, repo, branch) →
       (truthy branch = false →
        requestFails w ("/repos/" +:+ owner +:+ "/" +:+ repo) →
        script localeCompare w = Outcome 1 [])
       ∧ (∀ ref, resolveRef w owner repo branch = Some ref →
            requestFails w (treeUrl owner repo ref) →
            script localeCompare w = Outcome 1 [])
       ∧ (fetchTree w owner repo branch = None →
          script localeCompare w = Outcome 1 []))
  ∧ (∀ f c, (f, c) ∈ written (script localeCompare w) →
       ∃ owner repo branch tree out,
         parseArgs w = Some (owner, repo, branch)
         ∧ fetchTree w owner repo branch = Some tree
         ∧ buildTopology localeCompare tree = Some out
         ∧ ((f = nodesFile ∧ c = nodesContent (topNodes out))
            ∨ (f = edgesFile ∧ c = edgesContent (topEdges out)))).
Proof.
  split; [|split; [|split]].
  - intros H. unfold script. by rewrite H.
  - unfold parseArgs. destruct (argv w !! 0) as [repoArg|] eqn:Harg;
      [|split; [by left|done]].
    destruct (truthy (Some repoArg)) eqn:Ht; [|split; [by left|done]].
    simpl negb. cbv iota. unfold interpolate at 1 2.
    destruct (truthy (Js.split "/" repoArg !! 0)) eqn:Ho;
      [|split; [intros _; right; exists repoArg; by eauto|done]].
    destruct (truthy (Js.split "/" repoArg !! 1)) eqn:Hr;
      [|split; [intros _; right; exists repoArg; by eauto|done]].
    simpl. split; [done|].
    intros [Habs|(repoArg' & Heq & [Habs|Habs])]; [done|..];
      injection Heq as <-; congruence.
  - intros owner repo branch Hargs. unfold script. rewrite Hargs.
    split; [|split].
    + intros Hb Hfail. apply main_not_fetched.
      unfold fetchTree, resolveRef, getDefaultBranch.
      by rewrite Hb, (requestFails_ghFetch _ _ Hfail).
    + intros ref Href Hfail. apply main_not_fetched.
      unfold fetchTree. rewrite Href. simpl.
      by rewrite (requestFails_ghFetch _ _ Hfail).
    + apply main_not_fetched.
  - intros f c. unfold script.
    destruct (parseArgs w) as [[[owner repo] branch]|] eqn:Hargs;
      [|by intros ?%elem_of_nil].
    destruct (fetchTree w owner repo branch) as [tree|] eqn:Hfetch.
    + rewrite (main_fetched _ _ _ _ _ _ Hfetch). intros Hw%written_writeFiles.
      exists owner, repo, branch, tree, (trim (rawState localeCompare tree)).
      split; [done|]. split; [done|]. split; [apply buildTopology_closed|done].
    + rewrite (main_not_fetched _ _ _ _ _ Hfetch). by intros ?%elem_of_nil.
Qed.

Lemma failure_writes_nothing_witness :
  script codeUnitCompare noArgsWorld = Outcome 1 []
  ∧ script codeUnitCompare offlineWorld = Outcome 1 [].
Proof.
  split.
  - apply (failure_writes_nothing codeUnitCompare noArgsWorld).
    vm_compute. reflexivity.
  - destruct (failure_writes_nothing codeUnitCompare offlineWorld)
      as (_ & _ & Hfail & _).
    assert (parseArgs offlineWorld = Some ("cardano-foundation", "cardano-org", None))
      as Hargs by (vm_compute; reflexivity).
    destruct (Hfail _ _ _ Hargs) as (Hdefault & _ & _).
    apply Hdefault; [reflexivity|exact I].
Defined.

(** ** [split], [join] and the argument checks *)

Lemma split_cons (sep : ascii) (s : string) :
  ∃ h t, Js.split sep s = h :: t.
Proof.
  destruct s as [|c s]; simpl; [by eexists _, _|].
  destruct (Ascii.eqb c sep); [by eexists _, _|].
  destruct (Js.split sep s); by eexists _, _.
Qed.

Lemma join_cons (sep x y : string) (l : list string) :
  Js.join sep (x :: y :: l) = x +:+ sep +:+ Js.join sep (y :: l).
Proof. done. Qed.

Lemma append_String (c : ascii) (a b : string) :
  String c a +:+ b = String c (a +:+ b).
Proof. reflexivity. Qed.

Lemma append_empty_r (s : string) : s +:+ "" = s.
Proof. induction s as [|c s IH]; [done|]. by rewrite append_String, IH. Qed.

Lemma append_assoc (a b c : string) : (a +:+ b) +:+ c = a +:+ b +:+ c.
Proof. induction a as [|x a IH]; [done|]. by rewrite !append_String, IH. Qed.

Lemma noSlash_String (c : ascii) (s : string) :
  noSlash (String c s) = negb (Ascii.eqb c "/"%char) && noSlash s.
Proof. done. Qed.

(** Splitting at a separator and joining with it gives the string back. *)
Lemma join_split (sep : ascii) (s : string) :
  Js.join (String sep "") (Js.split sep s) = s.
Proof.
  induction s as [|c s IH]; [done|]. simpl.
  destruct (split_cons sep s) as (h & t & Hs). rewrite Hs in *.
  destruct (Ascii.eqb c sep) eqn:Hc.
  - apply Ascii.eqb_eq in Hc as ->. rewrite join_cons, IH. done.
  - destruct t as [|y t].
    + simpl in *. by rewrite IH.
    + rewrite join_cons in *. rewrite append_String. by rewrite IH.
Qed.

Lemma split_noSlash (s : string) :
  Forall (λ part, noSlash part = true) (Js.split "/"%char s).
Proof.
  induction s as [|c s IH]; simpl; [by repeat constructor|].
  destruct (Ascii.eqb c "/") eqn:Hc; [constructor; [reflexivity|exact IH]|].
  destruct (Js.split "/" s) as [|h t].
  - constructor; [|done]. by rewrite noSlash_String, Hc.
  - apply Forall_cons in IH as [Hh Ht]. constructor; [|done].
    by rewrite noSlash_String, Hc.
Qed.

Lemma split_app (a s : string) :
  noSlash a = true →
  Js.split "/"%char (a +:+ "/" +:+ s) = a :: Js.split "/"%char s.
Proof.
  induction a as [|c a IH]; intros Ha; [done|].
  rewrite noSlash_String in Ha. apply andb_true_iff in Ha as [Hc Ha].
  apply negb_true_iff in Hc. simpl. rewrite Hc, IH by done. done.
Qed.

Lemma split_whole (a : string) :
  noSlash a = true → Js.split "/"%char a = [a].
Proof.
  induction a as [|c a IH]; intros Ha; [done|].
  rewrite noSlash_String in Ha. apply andb_true_iff in Ha as [Hc Ha].
  apply negb_true_iff in Hc. simpl. rewrite Hc, IH by done. done.
Qed.

Lemma truthy_Some (s : string) : truthy (Some s) = true ↔ s ≠ "".
Proof.
  simpl. rewrite negb_true_iff. split.
  - intros H ->. done.
  - intros H. by apply String.eqb_neq.
Qed.

(** X1.  [s.split('/')] and [join('/')] are inverse to each other on the
    split side: joining the parts of a string with the separator gives the
    string back, there is always a first part, and no part contains the
    separator. *)
Theorem split_join_round_trip (s : string) :
  Js.join "/" (Js.split "/"%char s) = s
  ∧ Js.split "/"%char s ≠ []
  ∧ Forall (λ part, noSlash part = true) (Js.split "/"%char s).
Proof.
  split; [apply (join_split "/"%char)|]. split; [|apply split_noSlash].
  destruct (split_cons "/"%char s) as (h & t & ->). done.
Qed.

(** X2.  The argument checks accept exactly the repository arguments that
    begin with a non-empty owner, a [/] and a non-empty repository name,
    neither containing a [/]; what follows a second [/] is ignored, and the
    branch is the second argument as it is. *)
Theorem parseArgs_accepts (w : world) (owner repo : string)
    (branch : option string) :
  parseArgs w = Some (owner, repo, branch)
  ↔ branch = argv w !! 1
    ∧ owner ≠ "" ∧ repo ≠ ""
    ∧ noSlash owner = true ∧ noSlash repo = true
    ∧ ∃ tail, argv w !! 0 = Some (owner +:+ "/" +:+ repo +:+ tail)
              ∧ (tail = "" ∨ ∃ rest, tail = "/" +:+ rest).
Proof.
  unfold parseArgs. split.
  - destruct (argv w !! 0) as [repoArg|] eqn:Harg; [|done].
    destruct (truthy (Some repoArg)) eqn:Ht; [|done]. simpl negb. cbv iota.
    unfold interpolate at 1.
    pose proof (join_split "/"%char repoArg) as Hjoin.
    pose proof (split_noSlash repoArg) as Hparts.
    destruct (Js.split "/" repoArg) as [|o [|r rest]] eqn:Hsplit; simpl.
    + done.
    + by rewrite orb_true_r.
    + destruct o as [|co o]; [done|]. destruct r as [|cr r]; [done|].
      simpl. intros [= <- <- <-].
      assert (String co o ≠ "" ∧ String cr r ≠ "") as [Ho Hr] by done.
      apply Forall_cons in Hparts as [Hpo Hparts].
      apply Forall_cons in Hparts as [Hpr Hparts].
      rewrite ?Hsplit. simpl.
      repeat (split; [done|]).
      destruct rest as [|x rest].
      * exists "". split; [|by left]. rewrite <- Hjoin. simpl.
        by rewrite append_empty_r.
      * exists ("/" +:+ Js.join "/" (x :: rest)). split; [|by right; eexists].
        rewrite <- Hjoin. by rewrite !join_cons.
  - intros (-> & Ho & Hr & Hpo & Hpr & tail & -> & Htail).
    assert (∃ t, Js.split "/" (owner +:+ "/" +:+ repo +:+ tail) = owner :: repo :: t)
      as [t Hsplit].
    { rewrite split_app by done. destruct Htail as [->|[rest ->]].
      - rewrite append_empty_r, split_whole by done. by eexists.
      - rewrite split_app by done. by eexists. }
    assert (truthy (Some (owner +:+ "/" +:+ repo +:+ tail)) = true) as ->.
    { apply truthy_Some. destruct owner as [|c o]; [by destruct Ho|].
      by rewrite append_String. }
    change (interpolate (Some ?x)) with x. rewrite Hsplit.
    destruct owner as [|c o]; [by destruct Ho|].
    destruct repo as [|c' r]; [by destruct Hr|]. reflexivity.
Qed.

Lemma parseArgs_accepts_witness :
  parseArgs (World ["IntersectMBO/cardano-ledger/tree/master"; "main"] None
               sampleApi (λ _, true))
  = Some ("IntersectMBO", "cardano-ledger", Some "main").
Proof.
  apply parseArgs_accepts.
  repeat split; try done.
  exists "/tree/master". split; [done|]. right. by eexists.
Defined.

(** ** [path.dirname] on a joined path *)

Lemma length_append (a b : string) :
  String.length (a +:+ b) = String.length a + String.length b.
Proof. induction a as [|c a IH]; [done|]. rewrite append_String. simpl. by rewrite IH. Qed.

Lemma isSlashAt_app_l (a b : string) (i : nat) :
  i < String.length a → Js.isSlashAt (a +:+ b) i = Js.isSlashAt a i.
Proof.
  revert i. induction a as [|c a IH]; intros i Hi; simpl in Hi; [lia|].
  rewrite append_String. destruct i as [|i]; [done|].
  apply (IH i). lia.
Qed.

Lemma isSlashAt_app_r (a b : string) (i : nat) :
  Js.isSlashAt (a +:+ b) (String.length a + i) = Js.isSlashAt b i.
Proof.
  induction a as [|c a IH]; [done|]. rewrite append_String. exact IH.
Qed.

Lemma noSlash_isSlashAt (n : string) :
  noSlash n = true → ∀ i, Js.isSlashAt n i = false.
Proof.
  induction n as [|c n IH]; intros Hn i; [by destruct i|].
  rewrite noSlash_String in Hn. apply andb_true_iff in Hn as [Hc Hn].
  apply negb_true_iff in Hc. destruct i as [|i].
  - unfold Js.isSlashAt. simpl. exact Hc.
  - apply (IH Hn i).
Qed.

Lemma substring_app (a b : string) :
  String.substring 0 (String.length a) (a +:+ b) = a.
Proof.
  induction a as [|c a IH]; [by destruct b|].
  rewrite append_String. simpl. by rewrite IH.
Qed.

Lemma dirname_loop_no_slash (s : string) :
  (∀ i, Js.isSlashAt s i = false) → ∀ i m, Js.dirname_loop s i m = None.
Proof.
  intros Hs. induction i as [|i IH]; intros m; [done|].
  simpl. rewrite Hs. apply IH.
Qed.

Lemma dirname_loop_last_slash (s : string) (l : nat) :
  1 ≤ l → Js.isSlashAt s l = true →
  ∀ k, (∀ j, 1 ≤ j ≤ k → Js.isSlashAt s (l + j) = false) →
       1 ≤ k → ∀ m, Js.dirname_loop s (l + k) m = Some l.
Proof.
  intros Hl Hslash. induction k as [|k IH]; intros Hrest Hk m; [lia|].
  rewrite Nat.add_succ_r. simpl.
  rewrite <- Nat.add_succ_r, Hrest by lia.
  destruct k as [|k].
  - rewrite Nat.add_0_r. destruct l as [|l]; [lia|].
    simpl. by rewrite Hslash.
  - apply IH; [|lia]. intros j Hj. apply Hrest. lia.
Qed.

(** X3.  The parent key is the directory part of a path: a name without [/]
    has the parent key [''] (top level), and a path made of a relative,
    non-empty directory path, a [/] and a non-empty name without [/] has
    that directory path as [path.dirname] and as parent key, except that the
    directory path ['.'] gives the parent key ['']. *)
Theorem parentKeyOf_joined :
  (∀ n, noSlash n = true → parentKeyOf n = "")
  ∧ (∀ d n, relativePath d = true → n ≠ "" → noSlash n = true →
       Js.dirname (d +:+ "/" +:+ n) = d
       ∧ parentKeyOf (d +:+ "/" +:+ n) = if String.eqb d "." then "" else d).
Proof.
  split.
  - intros n Hn. pose proof (noSlash_isSlashAt n Hn) as Hs.
    unfold parentKeyOf, Js.dirname.
    destruct (String.length n =? 0); [done|].
    by rewrite dirname_loop_no_slash, Hs.
  - intros d n Hd Hne Hn.
    assert (Js.dirname (d +:+ "/" +:+ n) = d) as Hdir; [|by unfold parentKeyOf; rewrite Hdir].
    unfold relativePath in Hd. apply andb_true_iff in Hd as [Hd0 Hrel].
    apply negb_true_iff in Hd0, Hrel. apply String.eqb_neq in Hd0.
    assert (1 ≤ String.length d) as Hlen by (destruct d; [done|simpl; lia]).
    assert (1 ≤ String.length n) as Hlenn by (destruct n; [done|simpl; lia]).
    pose proof (noSlash_isSlashAt n Hn) as Hs.
    unfold Js.dirname. rewrite !length_append.
    replace (String.length d + (String.length "/" + String.length n) =? 0)
      with false by (symmetry; apply Nat.eqb_neq; lia).
    rewrite isSlashAt_app_l, Hrel by lia.
    replace (String.length d + (String.length "/" + String.length n) - 1)
      with (String.length d + String.length n) by (simpl; lia).
    rewrite (dirname_loop_last_slash _ (String.length d)); [| | | |done].
    + simpl. apply substring_app.
    + done.
    + rewrite <- (Nat.add_0_r (String.length d)) at 1.
      by rewrite isSlashAt_app_r.
    + intros j Hj. rewrite isSlashAt_app_r.
      destruct j as [|j]; [lia|]. apply (Hs j).
Qed.

Lemma parentKeyOf_joined_witness :
  Js.dirname ("src/lib" +:+ "/" +:+ "util.js") = "src/lib"
  ∧ parentKeyOf ("src/lib" +:+ "/" +:+ "util.js") = "src/lib"
  ∧ parentKeyOf "README.md" = "".
Proof.
  destruct parentKeyOf_joined as [Htop Hjoin].
  destruct (Hjoin "src/lib" "util.js") as [H1 H2]; [done..|].
  split; [done|]. split; [done|]. by apply Htop.
Defined.

(** ** Further properties of the topology *)

Section More.
Variable localeCompare : string → string → Z.
Variable tree : list entry.

Local Abbreviation D := (dirsOf localeCompare tree).
Local Abbreviation F := (filesOf localeCompare tree).
Local Abbreviation dm := (dirMapOf localeCompare tree).
Local Abbreviation raw := (rawState localeCompare tree).
Local Abbreviation out := (trim (rawState localeCompare tree)).

Lemma raw_lookup_kind (c : nat) (nd : node) :
  nodes raw !! c = Some nd →
  (c = 0 ∧ nd = rootNode)
  ∨ (∃ i, c = S i ∧ D !! i = Some (p nd) ∧ t nd = "d")
  ∨ (∃ i, c = S (length D + i) ∧ F !! i = Some (p nd) ∧ t nd = "f").
Proof.
  intros H.
  destruct (raw_lookup_cases _ _ _ _ H) as [?|[(i & -> & Hi & _)|(i & -> & Hi & _)]];
    [by left|right; left|right; right]; exists i.
  - rewrite (raw_lookup_dir _ _ _ _ Hi) in H. by injection H as <-.
  - rewrite (raw_lookup_file _ _ _ _ Hi) in H. by injection H as <-.
Qed.

(** The directory map sends a key to the root or to a directory node with
    that path. *)
Lemma dirMapOf_node (k : string) (q : nat) :
  dm !! k = Some q →
  ∃ parent, nodes raw !! q = Some parent
    ∧ id parent = q
    ∧ ((q = 0 ∧ parent = rootNode ∧ k = "")
       ∨ (0 < q ∧ t parent = "d" ∧ p parent = k)).
Proof.
  intros [(-> & -> & _)|(i & -> & Hi & _)]%dirMapOf_lookup.
  - exists rootNode. split; [done|]. split; [done|]. by left.
  - eexists. split; [by apply raw_lookup_dir|]. split; [done|].
    right. split; [lia|done].
Qed.
End More.

(** X4.  Every edge joins a node to its directory: the parent of a pair is
    the root, when the parent key of the child is [''], or a directory node
    whose path is the parent key of the child, and no directory node with
    that path comes later in the node array.  This holds for every listing
    and every collation. *)
Theorem edges_join_directory (localeCompare : string → string → Z)
    (tree : list entry) :
  ∃ out, buildTopology localeCompare tree = Some out
    ∧ ∀ i q, (i, q) ∈ pairsOf (topEdges out) →
        ∃ nd parent,
          topNodes out !! i = Some nd
          ∧ topNodes out !! q = Some parent
          ∧ ((q = 0 ∧ parent = rootNode ∧ parentKeyOf (p nd) = "")
             ∨ (0 < q ∧ t parent = "d" ∧ p parent = parentKeyOf (p nd)))
          ∧ ∀ j other, topNodes out !! j = Some other → t other = "d" →
              p other = parentKeyOf (p nd) → j ≤ q.
Proof.
  eexists. split; [apply buildTopology_closed|].
  intros i q (Hi & nd & Hnd & Hq & Hr)%out_pairs.
  destruct (dirMapOf_node _ _ _ _ Hq) as (parent & Hparent & _ & Hkind).
  exists nd, parent. split; [done|]. split; [|split; [done|]].
  - apply out_lookup. split; [done|].
    pose proof (out_parent_kept _ _ _ _ Hq Hr) as Hlt.
    rewrite out_length in Hlt. lia.
  - intros j other [Hother _]%out_lookup Ht Hp.
    destruct (raw_lookup_kind _ _ _ _ Hother) as [[-> ->]|[(j' & -> & Hj & _)|(j' & _ & _ & Hf)]].
    + done.
    + rewrite Hp in Hj.
      apply dirMapOf_lookup in Hq as [(_ & _ & Hnot)|(i' & -> & _ & Hlast)].
      * exfalso. apply Hnot. by eapply list_elem_of_lookup_2.
      * apply Hlast in Hj. lia.
    + congruence.
Qed.

(** X5.  A [pid] always names an earlier directory node: when a node at
    index [i] has a [pid], the [pid] is the decimal string of an index [k]
    with 0 < k < i, and the node at [k] is kept, is a directory node, has
    id [k] and has the parent key of the node as path.  This holds for every
    listing and every collation. *)
Theorem pid_names_earlier_directory (localeCompare : string → string → Z)
    (tree : list entry) :
  ∃ out, buildTopology localeCompare tree = Some out
    ∧ ∀ i nd s, topNodes out !! i = Some nd → pid nd = Some s →
        ∃ k parent,
          s = Js.String_ k ∧ 0 < k ∧ k < i
          ∧ topNodes out !! k = Some parent
          ∧ id parent = k ∧ t parent = "d"
          ∧ p parent = parentKeyOf (p nd).
Proof.
  eexists. split; [apply buildTopology_closed|].
  intros i nd s Hkept Hpid. pose proof Hkept as [Hnd Hcap]%out_lookup.
  assert (∃ k, s = Js.String_ k ∧ 0 < k ∧ k < i
               ∧ dirsOf localeCompare tree !! (k - 1) = Some (parentKeyOf (p nd)))
    as (k & -> & Hk0 & Hki & Hdir).
  { destruct (raw_lookup_cases _ _ _ _ Hnd) as [[-> ->]|[(j & -> & Hj & _)|(j & -> & _ & Hp)]].
    - done.
    - rewrite (raw_lookup_dir _ _ _ _ Hj) in Hnd. injection Hnd as Hnd.
      assert (pid nd = pidOf (dirsMap 1 (take j (dirsOf localeCompare tree))
                                {[ "" := 0 ]}) (p nd)) as Hp
        by (by rewrite <- Hnd).
      rewrite Hp in Hpid. unfold pidOf in Hpid. rewrite dirsMap_lookup in Hpid.
      destruct (lastIndex _ (take j _)) as [j'|] eqn:Hlast.
      + simpl in Hpid. injection Hpid as <-.
        apply lastIndex_Some in Hlast as [Hj' _].
        apply lookup_take_Some in Hj' as [Hj' Hlt].
        exists (S j'). rewrite Nat.sub_1_r. simpl. repeat split; [lia|lia|done].
      + destruct ({[ "" := 0 ]} !! parentKeyOf (p nd)) as [z|] eqn:Hz; [|done].
        apply lookup_singleton_Some in Hz as [_ <-]. done.
    - rewrite Hp in Hpid. unfold pidOf in Hpid.
      destruct (dirMapOf localeCompare tree !! parentKeyOf (p nd)) as [z|] eqn:Hz; [|done].
      pose proof (dirMapOf_bound _ _ _ _ Hz) as Hb.
      apply dirMapOf_lookup in Hz as [(-> & _)|(j' & -> & Hj' & _)]; [done|].
      simpl in Hpid. injection Hpid as <-.
      exists (S j'). rewrite Nat.sub_1_r. simpl. repeat split; [lia|lia|done]. }
  destruct k as [|k]; [lia|]. rewrite Nat.sub_1_r in Hdir. simpl in Hdir.
  eexists (S k), _. split; [done|]. split; [done|]. split; [done|].
  split; [apply out_lookup; split; [by apply raw_lookup_dir|lia]|].
  done.
Qed.

Lemma length_filter_kind (x : string) (l : list node) :
  length (filter (λ nd, t nd = x) l) = length (filter (λ k, k = x) (map t l)).
Proof.
  induction l as [|nd l IH]; [done|]. simpl.
  rewrite !filter_cons. destruct (decide (t nd = x)); simpl; by rewrite IH.
Qed.

Lemma length_filter_replicate (x y : string) (n : nat) :
  length (filter (λ k, k = x) (replicate n y)) = if decide (y = x) then n else 0.
Proof.
  induction n as [|n IH]; simpl; [by destruct (decide (y = x))|].
  rewrite filter_cons. destruct (decide (y = x)); simpl; by rewrite IH.
Qed.

(** X6.  How many nodes there are of each kind: one root; the directories
    come first and fill the room below the cap, the files fill what room the
    directories leave.  With [d] tree entries and [f] blob entries in the
    listing, the final array has min(2500, 1 + d + f) nodes, of which
    min(2499, d) are directory nodes and min(2499 - d, f) are file nodes;
    entries of any other type give no node. *)
Theorem node_counts (localeCompare : string → string → Z) (tree : list entry) :
  ∃ out, buildTopology localeCompare tree = Some out
    ∧ length (topNodes out)
      = MAX_NODES `min` S (length (pathsOf isTree tree) + length (pathsOf isBlob tree))
    ∧ length (filter (λ nd, t nd = "r") (topNodes out)) = 1
    ∧ length (filter (λ nd, t nd = "d") (topNodes out))
      = (MAX_NODES - 1) `min` length (pathsOf isTree tree)
    ∧ length (filter (λ nd, t nd = "f") (topNodes out))
      = (MAX_NODES - 1 - length (pathsOf isTree tree))
          `min` length (pathsOf isBlob tree).
Proof.
  eexists. split; [apply buildTopology_closed|].
  split; [by rewrite out_length, raw_length_listing|].
  assert (map t (topNodes (trim (rawState localeCompare tree)))
          = "r" :: replicate ((MAX_NODES - 1) `min` length (pathsOf isTree tree)) "d"
                ++ replicate ((MAX_NODES - 1 - length (pathsOf isTree tree))
                                `min` length (pathsOf isBlob tree)) "f") as Hkinds.
  { rewrite trim_nodes, <- firstn_map, raw_kinds.
    rewrite <- (dirs_perm localeCompare tree), <- (files_perm localeCompare tree).
    change MAX_NODES with (S (MAX_NODES - 1)) at 1.
    cbn [take firstn]. rewrite take_app, !take_replicate, length_replicate. done. }
  rewrite !length_filter_kind, Hkinds.
  rewrite !filter_cons, !filter_app. simpl.
  rewrite !length_app, !length_filter_replicate. simpl. lia.
Qed.

(** X7.  Trimming keeps exactly the raw edges between kept nodes: the pairs
    of the final edge array are the pairs of the first edge loop whose child
    and parent are both indices of the final node array, in the same order.
    This holds for every listing and every collation, trimmed or not. *)
Theorem final_edges_between_kept (localeCompare : string → string → Z)
    (tree : list entry) :
  ∃ st out,
    buildRaw localeCompare tree = Some st
    ∧ buildTopology localeCompare tree = Some out
    ∧ pairsOf (topEdges out)
      = filter (λ e, e.1 < length (topNodes out) ∧ e.2 < length (topNodes out))
               (pairsOf (rawEdges st)).
Proof.
  eexists _, _. split; [apply buildRaw_closed|].
  split; [apply buildTopology_closed|].
  unfold rawEdges at 1. rewrite pairsOf_edgesFrom. unfold trim.
  destruct (MAX_NODES <? length (nodes (rawState localeCompare tree))) eqn:Hlong;
    cbn [topNodes topEdges].
  - apply Nat.ltb_lt in Hlong. unfold rebuiltEdges.
    rewrite pairsOf_edgesFrom, length_take, Nat.min_l by lia.
    by rewrite <- pairsFrom_filter, drop_take_1.
  - apply Nat.ltb_ge in Hlong. unfold rawEdges. rewrite pairsOf_edgesFrom.
    symmetry. apply filter_all_id.
    apply Forall_forall. intros [c q] (nd & Hc & Hnd & Hq)%elem_of_pairsFrom.
    rewrite lookup_drop in Hnd. apply lookup_lt_Some in Hnd.
    unfold parentIdxOf in Hq.
    destruct (dirMap _ !! parentKeyOf (p nd)) as [z|] eqn:Hz; [|done].
    injection Hq as <-. apply dirMapOf_bound in Hz.
    rewrite raw_length in *. simpl. lia.
Qed.

(** X8.  Nodes come from entries and, below the cap, every entry is there:
    every node but the root has the path of a tree entry of the listing and
    kind ['d'], or the path of a blob entry and kind ['f']; and when the
    root, the tree entries and the blob entries together are at most 2500,
    every tree entry has a directory node with its path and every blob entry
    a file node with its path. *)
Theorem nodes_are_entries (localeCompare : string → string → Z)
    (tree : list entry) :
  ∃ out, buildTopology localeCompare tree = Some out
    ∧ (∀ i nd, 1 ≤ i → topNodes out !! i = Some nd →
         ∃ e, e ∈ tree ∧ path e = p nd
              ∧ ((isTree e = true ∧ t nd = "d") ∨ (isBlob e = true ∧ t nd = "f")))
    ∧ (S (length (pathsOf isTree tree) + length (pathsOf isBlob tree)) ≤ MAX_NODES →
       ∀ e, e ∈ tree →
         (isTree e = true →
          ∃ i nd, topNodes out !! i = Some nd ∧ t nd = "d" ∧ p nd = path e)
         ∧ (isBlob e = true →
            ∃ i nd, topNodes out !! i = Some nd ∧ t nd = "f" ∧ p nd = path e)).
Proof.
  eexists. split; [apply buildTopology_closed|]. split.
  - intros i nd Hi [Hnd _]%out_lookup.
    destruct (raw_lookup_kind _ _ _ _ Hnd) as [[-> _]|[(j & _ & Hj & Ht)|(j & _ & Hj & Ht)]].
    + lia.
    + apply list_elem_of_lookup_2, elem_of_dirs in Hj as (e & He & Hte & Hp).
      exists e. split; [done|]. split; [done|]. by left.
    + apply list_elem_of_lookup_2, elem_of_files in Hj as (e & He & Hte & Hp).
      exists e. split; [done|]. split; [done|]. by right.
  - intros Hsmall e He.
    rewrite <- (raw_length_listing localeCompare tree) in Hsmall. split.
    + intros Hte.
      assert (path e ∈ dirsOf localeCompare tree) as [j Hj]%list_elem_of_lookup_1
        by (apply elem_of_dirs; by exists e).
      apply lookup_lt_Some in Hj as Hlt. rewrite raw_length in Hsmall.
      eexists (S j), _.
      split; [apply out_lookup; split; [by apply raw_lookup_dir|lia]|done].
    + intros Hbe.
      assert (path e ∈ filesOf localeCompare tree) as [j Hj]%list_elem_of_lookup_1
        by (apply elem_of_files; by exists e).
      apply lookup_lt_Some in Hj as Hlt. rewrite raw_length in Hsmall.
      eexists (S (length (dirsOf localeCompare tree) + j)), _.
      split; [apply out_lookup; split; [by apply raw_lookup_file|lia]|done].
Qed.

(** X9.  The sort puts directories before files: under a collation that is
    a consistent comparison, the sorted listing of a listing of directories
    and files is a rearrangement of the listing in which every tree entry
    comes before every blob entry. *)
Theorem sort_directories_first (localeCompare : string → string → Z)
    (tree : list entry) :
  antisymmetricCmp localeCompare →
  transitiveCmp localeCompare →
  treesAndBlobs tree = true →
  Js.sort (compareEntries localeCompare) tree ≡ₚ tree
  ∧ ∀ i j a b,
      Js.sort (compareEntries localeCompare) tree !! i = Some a →
      Js.sort (compareEntries localeCompare) tree !! j = Some b →
      isTree a = true → isBlob b = true → i < j.
Proof.
  intros Hanti Htrans Hknown. split; [apply sort_perm|].
  intros i j a b Hi Hj Ha Hb.
  pose proof (sorted_listing _ Hanti Htrans _ Hknown) as Hsorted.
  destruct (Nat.lt_trichotomy i j) as [Hlt|[->|Hgt]]; [done| |].
  - rewrite Hi in Hj. injection Hj as ->.
    unfold isTree, isBlob in *. apply String.eqb_eq in Ha, Hb. congruence.
  - pose proof (StronglySorted_lookup_lt _ _ Hsorted _ _ _ _ Hj Hi Hgt) as Hle.
    simpl in Hle. rewrite compareEntries_blob_tree in Hle by done. lia.
Qed.

Lemma sort_directories_first_witness :
  Js.sort (compareEntries codeUnitCompare) sampleTree ≡ₚ sampleTree
  ∧ ∀ i j a b,
      Js.sort (compareEntries codeUnitCompare) sampleTree !! i = Some a →
      Js.sort (compareEntries codeUnitCompare) sampleTree !! j = Some b →
      isTree a = true → isBlob b = true → i < j.
Proof.
  apply (sort_directories_first codeUnitCompare sampleTree
           codeUnit_antisymmetric codeUnit_transitive).
  vm_compute. reflexivity.
Defined.

(** ** Further properties of the script *)

Lemma writeFiles_cases (w : world) (topo : topology) :
  (writable w nodesFile = false ∧ writeFiles w topo = Outcome 1 [])
  ∨ (writable w nodesFile = true ∧ writable w edgesFile = false
     ∧ writeFiles w topo = Outcome 1 [(nodesFile, nodesContent (topNodes topo))])
  ∨ (writable w nodesFile = true ∧ writable w edgesFile = true
     ∧ writeFiles w topo
       = Outcome 0 [(nodesFile, nodesContent (topNodes topo));
                    (edgesFile, edgesContent (topEdges topo))]).
Proof.
  unfold writeFiles.
  destruct (writable w nodesFile), (writable w edgesFile); by auto.
Qed.

Lemma script_cases (localeCompare : string → string → Z) (w : world) :
  ((parseArgs w = None
    ∨ ∃ owner repo branch, parseArgs w = Some (owner, repo, branch)
        ∧ fetchTree w owner repo branch = None)
   ∧ script localeCompare w = Outcome 1 [])
  ∨ ∃ owner repo branch tree out,
      parseArgs w = Some (owner, repo, branch)
      ∧ fetchTree w owner repo branch = Some tree
      ∧ buildTopology localeCompare tree = Some out
      ∧ script localeCompare w = writeFiles w out.
Proof.
  unfold script. destruct (parseArgs w) as [[[owner repo] branch]|] eqn:Hargs;
    [|left; by auto].
  destruct (fetchTree w owner repo branch) as [tree|] eqn:Hfetch.
  - right. exists owner, repo, branch, tree, (trim (rawState localeCompare tree)).
    split; [done|]. split; [done|]. split; [apply buildTopology_closed|].
    by apply main_fetched.
  - left. split; [right; by eauto|]. by apply main_not_fetched.
Qed.

(** X10.  The exit status and the files: the script exits with 0 or 1; it
    exits with 0 exactly when the arguments pass the checks, the listing is
    fetched and both files can be written, and then it has written
    [nodes.js] and [edges.js] in this order; it never writes [edges.js]
    without [nodes.js]; and it leaves [nodes.js] alone written, with exit
    status 1, exactly when the listing was fetched and only the second write
    fails. *)
Theorem script_exit_status (localeCompare : string → string → Z) (w : world) :
  (exitCode (script localeCompare w) = 0 ∨ exitCode (script localeCompare w) = 1)
  ∧ (exitCode (script localeCompare w) = 0
     ↔ ∃ owner repo branch tree,
         parseArgs w = Some (owner, repo, branch)
         ∧ fetchTree w owner repo branch = Some tree
         ∧ writable w nodesFile = true ∧ writable w edgesFile = true)
  ∧ (exitCode (script localeCompare w) = 0
     ↔ map fst (written (script localeCompare w)) = [nodesFile; edgesFile])
  ∧ (map fst (written (script localeCompare w)) = []
     ∨ map fst (written (script localeCompare w)) = [nodesFile]
     ∨ map fst (written (script localeCompare w)) = [nodesFile; edgesFile])
  ∧ (map fst (written (script localeCompare w)) = [nodesFile]
     ↔ ∃ owner repo branch tree,
         parseArgs w = Some (owner, repo, branch)
         ∧ fetchTree w owner repo branch = Some tree
         ∧ writable w nodesFile = true ∧ writable w edgesFile = false).
Proof.
  destruct (script_cases localeCompare w)
    as [[Hfail ->]|(owner & repo & branch & tree & out & Hargs & Hfetch & _ & ->)].
  - simpl. split; [by right|]. split; [|split; [done|split; [by left|]]].
    + split; [done|]. intros (o & r & b & tr & Ha & Hf & _).
      destruct Hfail as [Hnone|(o' & r' & b' & Ha' & Hf')]; congruence.
    + split; [done|]. intros (o & r & b & tr & Ha & Hf & _).
      destruct Hfail as [Hnone|(o' & r' & b' & Ha' & Hf')]; congruence.
  - destruct (writeFiles_cases w out) as [[Hn ->]|[(Hn & He & ->)|(Hn & He & ->)]];
      simpl.
    + split; [by right|]. split; [|split; [done|split; [by left|]]].
      * split; [done|]. intros (_ & _ & _ & _ & _ & _ & ? & _). congruence.
      * split; [done|]. intros (_ & _ & _ & _ & _ & _ & ? & _). congruence.
    + split; [by right|]. split; [|split; [done|split; [by right; left|]]].
      * split; [done|]. intros (_ & _ & _ & _ & _ & _ & _ & ?). congruence.
      * split; [|done]. intros _. by exists owner, repo, branch, tree.
    + split; [by left|]. split; [|split; [done|split; [by right; right|]]].
      * split; [|done]. intros _. by exists owner, repo, branch, tree.
      * split; [done|]. intros (_ & _ & _ & _ & _ & _ & _ & ?). congruence.
Qed.

(** X11.  Empty strings count as missing: a run with an empty
    [GITHUB_TOKEN] is the run without token (no [Authorization] header), and
    a run with an empty branch argument is the run without branch argument
    (the default branch is asked for). *)
Theorem empty_is_missing (localeCompare : string → string → Z)
    (args : list string) (token : option string)
    (api : string → option string → response) (fs : string → bool)
    (repoArg : string) (rest : list string) :
  script localeCompare (World args (Some "") api fs)
  = script localeCompare (World args None api fs)
  ∧ script localeCompare (World (repoArg :: "" :: rest) token api fs)
    = script localeCompare (World [repoArg] token api fs).
Proof.
  split; [reflexivity|].
  unfold script, parseArgs. cbn [argv lookup list_lookup].
  destruct (negb (truthy (Some repoArg))); [done|].
  destruct (negb _ || negb _); [done|].
  reflexivity.
Qed.

(** X12.  With a branch argument the repository is not asked for its default
    branch: the listing a run fetches for a non-empty branch depends on the
    API only through the answer to the request for the tree of that branch,
    so two worlds that give the same answer to that request fetch the
    same. *)
Theorem branch_skips_default_request (w w' : world) (owner repo branch : string) :
  branch ≠ "" →
  github w (treeUrl owner repo (Some branch)) (authorization w)
  = github w' (treeUrl owner repo (Some branch)) (authorization w') →
  fetchTree w owner repo (Some branch) = fetchTree w' owner repo (Some branch).
Proof.
  intros Hb Hsame. unfold fetchTree, resolveRef.
  apply truthy_Some in Hb. rewrite Hb. simpl.
  unfold ghFetch. by rewrite Hsame.
Qed.

Lemma branch_skips_default_request_witness :
  fetchTree sampleWorld' "cardano-foundation" "cardano-org" (Some "main")
  = fetchTree treeOnlyWorld "cardano-foundation" "cardano-org" (Some "main").
Proof.
  apply branch_skips_default_request; [done|]. vm_compute. reflexivity.
Defined.

(** ** Serialisation *)

Lemma chars_app (a b : string) : chars (a +:+ b) = chars a ++ chars b.
Proof.
  induction a as [|c a IH]; [done|]. rewrite append_String.
  unfold chars in *. simpl. by rewrite IH.
Qed.

Lemma printable_app (a b : string) :
  printable (a +:+ b) ↔ printable a ∧ printable b.
Proof. unfold printable. rewrite chars_app. apply Forall_app. Qed.

Lemma printable_String (c : ascii) (s : string) :
  printable (String c s) ↔ 32 ≤ nat_of_ascii c ∧ printable s.
Proof.
  unfold printable, chars. simpl. split.
  - intros H. by apply Forall_cons in H.
  - intros [? ?]. by constructor.
Qed.

Lemma digits_printable (s : string) : digits s → printable s.
Proof. intros H. eapply Forall_impl; [exact H|]. simpl. intros c Hc. lia. Qed.

Lemma pretty_N_char_digit (x : N) :
  48 ≤ nat_of_ascii (pretty_N_char x) ≤ 57.
Proof.
  unfold pretty_N_char. repeat case_match; vm_compute; lia.
Qed.

Lemma pretty_N_go_digits (x : N) : ∀ s,
  digits s → digits (pretty_N_go x s).
Proof.
  induction x as [x IH] using (well_founded_induction N.lt_wf_0). intros s Hs.
  destruct (decide (x = 0)%N) as [->|Hx]; [by rewrite pretty_N_go_0|].
  rewrite pretty_N_go_step by lia. apply IH.
  - apply N.div_lt; lia.
  - apply Forall_cons. split; [apply pretty_N_char_digit|done].
Qed.

Lemma pretty_N_go_length (x : N) : ∀ s,
  String.length s ≤ String.length (pretty_N_go x s).
Proof.
  induction x as [x IH] using (well_founded_induction N.lt_wf_0). intros s.
  destruct (decide (x = 0)%N) as [->|Hx]; [by rewrite pretty_N_go_0|].
  rewrite pretty_N_go_step by lia.
  etrans; [|apply IH; apply N.div_lt; lia]. simpl. lia.
Qed.

(** [String(n)] is a non-empty string of decimal digits. *)
Lemma String_digits (n : nat) : digits (Js.String_ n) ∧ Js.String_ n ≠ "".
Proof.
  unfold Js.String_, pretty, pretty_nat, pretty, pretty_N.
  destruct (decide (N.of_nat n = 0)%N) as [_|Hn].
  - split; [|done]. repeat constructor; simpl; lia.
  - split; [apply pretty_N_go_digits; constructor|].
    rewrite pretty_N_go_step by lia. intros Habs.
    pose proof (pretty_N_go_length (N.of_nat n `div` 10)
                  (String (pretty_N_char (N.of_nat n `mod` 10)) "")) as Hlen.
    rewrite Habs in Hlen. simpl in Hlen. lia.
Qed.

Lemma hexDigit_printable (k : nat) :
  k < 16 → 32 ≤ nat_of_ascii (Js.hexDigit k).
Proof.
  intros Hk. unfold Js.hexDigit.
  destruct (k <? 10); rewrite nat_ascii_embedding; lia.
Qed.

Lemma jsonEscapeChar_printable (c : ascii) : printable (Js.jsonEscapeChar c).
Proof.
  unfold Js.jsonEscapeChar.
  destruct (nat_of_ascii c =? 34) eqn:H34.
  { apply Nat.eqb_eq in H34. apply printable_app.
    split; [repeat constructor; vm_compute; lia|].
    apply printable_String. split; [lia|constructor]. }
  repeat match goal with
         | |- context [if (?a =? ?b) then _ else _] =>
             destruct (a =? b); [repeat constructor; vm_compute; lia|]
         end.
  destruct (nat_of_ascii c <? 32) eqn:H32.
  - apply Nat.ltb_lt in H32. apply printable_app.
    split; [repeat constructor; vm_compute; lia|].
    apply printable_String. split.
    + apply hexDigit_printable. apply Nat.Div0.div_lt_upper_bound. lia.
    + apply printable_String. split; [|constructor].
      apply hexDigit_printable. apply Nat.mod_upper_bound. lia.
  - apply Nat.ltb_ge in H32. apply printable_String. split; [done|constructor].
Qed.

Lemma jsonEscape_printable (s : string) : printable (Js.jsonEscape s).
Proof.
  induction s as [|c s IH]; [constructor|].
  simpl. apply printable_app. split; [apply jsonEscapeChar_printable|done].
Qed.

Lemma jsonString_printable (s : string) : printable (Js.jsonString s).
Proof.
  unfold Js.jsonString. apply printable_String. split; [vm_compute; lia|].
  apply printable_app. split; [apply jsonEscape_printable|].
  repeat constructor; vm_compute; lia.
Qed.

Lemma stringifyNode_printable (nd : node) : printable (stringifyNode nd).
Proof.
  unfold stringifyNode.
  repeat (apply printable_app; split);
    try apply jsonString_printable;
    try (repeat constructor; vm_compute; lia).
  - apply digits_printable, String_digits.
  - destruct (pid nd); [|constructor].
    repeat (apply printable_app; split);
      try apply jsonString_printable; repeat constructor; vm_compute; lia.
Qed.

Lemma lineBreaks_app (a b : string) :
  lineBreaks (a +:+ b) = lineBreaks a + lineBreaks b.
Proof. unfold lineBreaks. by rewrite chars_app, filter_app, length_app. Qed.

Lemma lineBreaks_printable (s : string) : printable s → lineBreaks s = 0.
Proof.
  intros Hs. unfold lineBreaks. rewrite filter_none_nil; [done|].
  eapply Forall_impl; [exact Hs|]. simpl. intros c Hc. lia.
Qed.

Lemma lineBreaks_join_lines (l : list string) :
  Forall printable l → l ≠ [] →
  lineBreaks (Js.join ("," +:+ newline) l) = length l - 1.
Proof.
  induction 1 as [|x l Hx Hl IH]; intros _; [done|].
  destruct l as [|y l].
  - simpl. by apply lineBreaks_printable.
  - rewrite join_cons, !lineBreaks_app, IH by done.
    rewrite (lineBreaks_printable x) by done. simpl. 
    change (lineBreaks ("," +:+ newline)) with 1. lia.
Qed.

(** X13.  A serialised node is one line: [JSON.stringify] of a node has no
    character below U+0020, whatever its path, so the text of [nodes.js] for a
    non-empty node array has one line per node between two header lines and
    two closing lines: its number of line breaks is the number of nodes
    plus 4. *)
Theorem nodes_file_lines (ns : list node) :
  Forall (λ nd, printable (stringifyNode nd)) ns
  ∧ (ns ≠ [] → lineBreaks (nodesContent ns) = length ns + 4).
Proof.
  split; [apply Forall_forall; intros nd _; apply stringifyNode_printable|].
  intros Hne. unfold nodesContent.
  rewrite !lineBreaks_app, lineBreaks_join_lines.
  - rewrite length_map. change (lineBreaks newline) with 1.
    change (lineBreaks "export const nodes = [") with 0.
    change (lineBreaks "  [") with 0. change (lineBreaks "  ]") with 0.
    change (lineBreaks "]") with 0.
    destruct ns; [done|]. simpl. lia.
  - apply Forall_forall. intros s (nd & -> & _)%list_elem_of_fmap.
    apply printable_app. split; [repeat constructor; vm_compute; lia|].
    apply stringifyNode_printable.
  - by destruct ns.
Qed.

Lemma nodes_file_lines_witness :
  lineBreaks (nodesContent [rootNode; Node "d" "src" 1 None]) = 6.
Proof. by apply nodes_file_lines. Defined.

Lemma jsonEscapeChar_plain (c : ascii) :
  plainChar c = true → Js.jsonEscapeChar c = String c "".
Proof.
  unfold plainChar, Js.jsonEscapeChar.
  intros [[H32 H34]%andb_true_iff H92]%andb_true_iff.
  apply Nat.leb_le in H32. apply negb_true_iff in H34, H92.
  rewrite H34, H92.
  repeat (match goal with
          | |- context [if ?b then _ else _] => destruct b eqn:?
          end); try done;
    repeat match goal with
           | H : (_ =? _) = true |- _ => apply Nat.eqb_eq in H
           | H : (_ <? _) = true |- _ => apply Nat.ltb_lt in H
           end; lia.
Qed.

(** X14.  [JSON.stringify] copies an ordinary string: a string without
    character below U+0020, double quote and backslash is serialised as itself
    between double quotes. *)
Theorem jsonString_plain (s : string) :
  forallb plainChar (chars s) = true →
  Js.jsonEscape s = s ∧ Js.jsonString s = String quote (s +:+ String quote "").
Proof.
  intros Hs.
  assert (Js.jsonEscape s = s) as Hesc; [|by unfold Js.jsonString; rewrite Hesc].
  induction s as [|c s IH]; [done|].
  unfold chars in Hs. simpl in Hs. apply andb_true_iff in Hs as [Hc Hs].
  simpl. rewrite jsonEscapeChar_plain, IH by done. done.
Qed.

Lemma jsonString_plain_witness :
  Js.jsonEscape "src/lib/util.js" = "src/lib/util.js"
  ∧ Js.jsonString "src/lib/util.js"
    = String quote ("src/lib/util.js" +:+ String quote "").
Proof. apply jsonString_plain. vm_compute. reflexivity. Defined.

(** ** Reading [edges.js] back *)

Lemma append_inj_l (a x y : string) : a +:+ x = a +:+ y → x = y.
Proof.
  induction a as [|c a IH]; [done|]. rewrite !append_String. intros [= H]. auto.
Qed.

(** A string that begins with a character that is not a digit. *)
Local Abbreviation stops := (λ r : string,
  match r with
  | String c _ => ¬ (48 ≤ nat_of_ascii c ≤ 57)
  | EmptyString => False
  end).

Lemma digits_prefix_unique (d : string) : ∀ d' r r',
  digits d → digits d' → stops r → stops r' →
  d +:+ r = d' +:+ r' → d = d' ∧ r = r'.
Proof.
  induction d as [|c d IH]; intros [|c' d'] r r' Hd Hd' Hr Hr' Heq.
  - done.
  - exfalso. change (r = String c' (d' +:+ r')) in Heq. subst r.
    apply Forall_cons in Hd' as [Hc _]. by apply Hr.
  - exfalso. change (String c (d +:+ r) = r') in Heq. subst r'.
    apply Forall_cons in Hd as [Hc _]. by apply Hr'.
  - rewrite !append_String in Heq. injection Heq as -> Heq.
    apply Forall_cons in Hd as [_ Hd]. apply Forall_cons in Hd' as [_ Hd'].
    destruct (IH d' r r' Hd Hd' Hr Hr' Heq) as [-> ->]. done.
Qed.

Lemma join_numbers_inj (ds : list string) : ∀ ds',
  Forall (λ d, digits d ∧ d ≠ "") ds → Forall (λ d, digits d ∧ d ≠ "") ds' →
  Js.join ", " ds +:+ "]" = Js.join ", " ds' +:+ "]" → ds = ds'.
Proof.
  induction ds as [|d ds IH]; intros [|d' ds'] Hds Hds' Heq.
  - done.
  - exfalso. apply Forall_cons in Hds' as [[Hd' Hne'] _].
    destruct d' as [|c d']; [done|]. apply Forall_cons in Hd' as [Hc _].
    destruct ds'; simpl in Heq; injection Heq as Hc' _; rewrite <- Hc' in Hc;
      vm_compute in Hc; lia.
  - exfalso. apply Forall_cons in Hds as [[Hd Hne] _].
    destruct d as [|c d]; [done|]. apply Forall_cons in Hd as [Hc _].
    destruct ds; simpl in Heq; injection Heq as Hc' _; rewrite Hc' in Hc;
      vm_compute in Hc; lia.
  - apply Forall_cons in Hds as [[Hd Hne] Hds].
    apply Forall_cons in Hds' as [[Hd' Hne'] Hds'].
    assert (∀ x l, ∃ r, Js.join ", " (x :: l) +:+ "]" = x +:+ r ∧ stops r
                        ∧ (l = [] → r = "]")
                        ∧ (l ≠ [] → r = ", " +:+ Js.join ", " l +:+ "]")) as Hshape.
    { intros x [|y l].
      - exists "]". repeat split; [vm_compute; lia|done].
      - exists (", " +:+ Js.join ", " (y :: l) +:+ "]").
        rewrite join_cons, !append_assoc.
        repeat split; [vm_compute; lia|done]. }
    destruct (Hshape d ds) as (r & Hr & Hstop & Hnil & Hcons).
    destruct (Hshape d' ds') as (r' & Hr' & Hstop' & Hnil' & Hcons').
    rewrite Hr, Hr' in Heq.
    destruct (digits_prefix_unique _ _ _ _ Hd Hd' Hstop Hstop' Heq) as [-> Hrr].
    f_equal. destruct ds as [|y ds], ds' as [|y' ds'].
    + done.
    + rewrite (Hnil eq_refl), (Hcons' ltac:(done)) in Hrr. done.
    + rewrite (Hnil' eq_refl), (Hcons ltac:(done)) in Hrr. done.
    + rewrite (Hcons ltac:(done)), (Hcons' ltac:(done)) in Hrr.
      apply (append_inj_l ", ") in Hrr. by apply IH.
Qed.

Lemma map_String_inj (es es' : list nat) :
  map Js.String_ es = map Js.String_ es' → es = es'.
Proof.
  revert es'. induction es as [|e es IH]; intros [|e' es'] H; try done.
  simpl in H. injection H as He H. f_equal; [|by apply IH].
  unfold Js.String_ in He. by apply (inj pretty) in He.
Qed.

(** X15.  [edges.js] can be read back: two edge arrays with the same file
    text are the same array. *)
Theorem edgesContent_inj (es es' : list nat) :
  edgesContent es = edgesContent es' → es = es'.
Proof.
  unfold edgesContent. intros H. apply append_inj_l in H.
  assert (Js.join ", " (map Js.String_ es) +:+ "]"
          = Js.join ", " (map Js.String_ es') +:+ "]") as Hj.
  { rewrite <- !append_assoc in H. revert H.
    generalize (Js.join ", " (map Js.String_ es) +:+ "]").
    generalize (Js.join ", " (map Js.String_ es') +:+ "]").
    intros b a. revert b. induction a as [|c a IH]; intros [|c' b] H; try done.
    - exfalso. rewrite append_String in H. simpl in H. injection H as _ H.
      destruct b; done.
    - exfalso. rewrite append_String in H. simpl in H. injection H as _ H.
      destruct a; done.
    - rewrite !append_String in H. injection H as -> H. f_equal. by apply IH. }
  apply map_String_inj, join_numbers_inj; [| |done];
    apply Forall_forall; intros d (n & -> & _)%list_elem_of_fmap;
    apply String_digits.
Qed.

Lemma edgesContent_inj_witness :
  edgesContent [1; 0; 2; 1] = edgesContent (flatten [(1, 0); (2, 1)])
  ∧ [1; 0; 2; 1] = flatten [(1, 0); (2, 1)].
Proof. split; [reflexivity|]. apply edgesContent_inj. reflexivity. Defined.
